(** * Minesweeper knowledge base: a shallow embedding of [minesweeper.py]

    The three classes of the program ([Minesweeper], [Sentence],
    [MinesweeperAI]) are embedded as three modules of the same names.
    Python sets of cells are finite sets [gset (Z * Z)], Python integers
    are [Z], Python lists are Rocq lists, and an exception raised by the
    interpreter is an explicit outcome of the embedded function. *)

From Stdlib Require Import ZArith Lia.
From stdpp Require Import base decidable numbers option list sets gmap.

Local Open Scope Z_scope.
#[local] Set Warnings "-clear-no-such-hyp".

(** ** Python values shared by the three classes *)

(** A board cell is the tuple [(i, j)]. *)
Abbreviation Cell := (Z * Z)%type.

(** The built-in exceptions the program can meet. *)
Inductive exn : Type :=
  | IndexError
  | ValueError.

(** Outcome of running a piece of the program: a value, a raised
    exception, or a loop that is still running when the supply of random
    draws is used up. *)
Inductive result (A : Type) : Type :=
  | Ok (a : A)
  | Raise (e : exn)
  | Running.
Arguments Ok {A} a.
Arguments Raise {A} e.
Arguments Running {A}.

#[export] Instance result_ret : MRet result := λ A a, Ok a.

#[export] Instance result_bind : MBind result := λ A B k m,
  match m with
  | Ok a => k a
  | Raise e => Raise e
  | Running => Running
  end.

(** [range(lo, hi)]: the integers [lo, lo+1, ..., hi-1]; empty when
    [hi <= lo]. *)
Definition range (lo hi : Z) : list Z := seqZ lo (hi - lo).

(** [l[i]] for a Python list: indices [0 .. len-1] count from the front,
    [-len .. -1] from the back, anything else raises [IndexError]. *)
Definition getitem {A : Type} (l : list A) (i : Z) : result A :=
  let n := Z.of_nat (length l) in
  if decide (0 ≤ i < n) then
    match l !! Z.to_nat i with Some x => Ok x | None => Raise IndexError end
  else if decide (- n ≤ i < 0) then
    match l !! Z.to_nat (n + i) with Some x => Ok x | None => Raise IndexError end
  else Raise IndexError.

(** [l[i] = x] for a Python list, with the same index convention. *)
Definition setitem {A : Type} (l : list A) (i : Z) (x : A) : result (list A) :=
  let n := Z.of_nat (length l) in
  if decide (0 ≤ i < n) then Ok (<[Z.to_nat i := x]> l)
  else if decide (- n ≤ i < 0) then Ok (<[Z.to_nat (n + i) := x]> l)
  else Raise IndexError.

(** Monadic left fold: a [for] loop whose body may raise. *)
Fixpoint foldM {A S : Type} (body : S → A → result S) (s : S) (l : list A)
  : result S :=
  match l with
  | [] => Ok s
  | x :: r => s' ← body s x; foldM body s' r
  end.

(** ** class Minesweeper *)

Module Minesweeper.

Record t : Type := mk {
  height : Z;
  width : Z;
  mines : gset Cell;
  board : list (list bool);
  mines_found : gset Cell
}.

(** [random.randrange(n)]: raises [ValueError] on an empty range, and
    otherwise returns some integer of [0, n); the generator is a supply
    of raw draws, and the raw draw [r] yields [r mod n]. *)
Definition randrange (n r : Z) : result Z :=
  if decide (n ≤ 0) then Raise ValueError else Ok (r `mod` n).

(** The two nested [for] loops that build the field with no mines. *)
Definition empty_board (height width : Z) : list (list bool) :=
  foldl (λ board _,
           board ++ [foldl (λ row _, row ++ [false]) [] (range 0 width)])
        [] (range 0 height).

(** The [while len(self.mines) != mines] loop. Every iteration takes a
    pair of raw draws; with no draws left the loop is still running. *)
Fixpoint place_mines (draws : list (Z * Z)) (height width mines_target : Z)
    (mines : gset Cell) (board : list (list bool))
  : result (gset Cell * list (list bool)) :=
  if decide (Z.of_nat (size mines) ≠ mines_target) then
    match draws with
    | [] => Running
    | (r1, r2) :: draws' =>
        i ← randrange height r1;
        j ← randrange width r2;
        row ← getitem board i;
        b ← getitem row j;
        if negb b then
          row' ← setitem row j true;
          board' ← setitem board i row';
          place_mines draws' height width mines_target ({[(i, j)]} ∪ mines) board'
        else
          place_mines draws' height width mines_target mines board
    end
  else Ok (mines, board).

Definition __init__ (height width mines_target : Z) (draws : list (Z * Z))
  : result t :=
  mb ← place_mines draws height width mines_target ∅ (empty_board height width);
  Ok (mk height width mb.1 mb.2 ∅).

Definition is_mine (self : t) (cell : Cell) : result bool :=
  let '(i, j) := cell in
  row ← getitem (board self) i;
  getitem row j.

(** Body of the two nested loops of [nearby_mines] at [(i, j)]; the
    accumulator is the local variable [count]. *)
Definition count_mine (self : t) (cell : Cell) (count : Z) (i j : Z)
  : result Z :=
  if decide ((i, j) = cell) then Ok count
  else if decide ((0 ≤ i < height self) ∧ (0 ≤ j < width self)) then
    row ← getitem (board self) i;
    b ← getitem row j;
    Ok (if b : bool then count + 1 else count)
  else Ok count.

Definition nearby_mines (self : t) (cell : Cell) : result Z :=
  foldM (λ count i,
           foldM (λ count j, count_mine self cell count i j) count
                 (range (cell.2 - 1) (cell.2 + 2)))
        0 (range (cell.1 - 1) (cell.1 + 2)).

Definition won (self : t) : bool :=
  bool_decide (mines_found self = mines self).

End Minesweeper.

(** ** class Sentence *)

Module Sentence.

Record t : Type := mk {
  cells : gset Cell;
  count : Z;
  safe_cells : gset Cell;
  mines_cells : gset Cell
}.

(** [Sentence(cells, count)]: copies the cells, starts with empty known
    sets. *)
Definition __init__ (cells0 : gset Cell) (count0 : Z) : t :=
  mk cells0 count0 ∅ ∅.

(** [__eq__] compares the unresolved cells and the count only. *)
Definition eqb (self other : t) : bool :=
  bool_decide (cells self = cells other) && bool_decide (count self = count other).

Definition known_mines (self : t) : gset Cell := mines_cells self.

Definition known_safes (self : t) : gset Cell := safe_cells self.

Definition conclude (self : t) : t :=
  let self1 :=
    if decide (count self = 0)
    then mk ∅ (count self) (safe_cells self ∪ cells self) (mines_cells self)
    else self in
  if decide (count self1 = Z.of_nat (size (cells self1)))
  then mk ∅ (count self1) (safe_cells self1) (mines_cells self1 ∪ cells self1)
  else self1.

Definition mark_mine (self : t) (cell : Cell) : t :=
  if decide (cell ∉ cells self) then self
  else conclude (mk (cells self ∖ {[cell]}) (count self - 1)
                    (safe_cells self) (mines_cells self ∪ {[cell]})).

Definition mark_safe (self : t) (cell : Cell) : t :=
  if decide (cell ∉ cells self) then self
  else conclude (mk (cells self ∖ {[cell]}) (count self)
                    (safe_cells self ∪ {[cell]}) (mines_cells self)).

End Sentence.

(** ** class MinesweeperAI *)

Module MinesweeperAI.

Record t : Type := mk {
  height : Z;
  width : Z;
  moves_made : gset Cell;
  mines : gset Cell;
  safes : gset Cell;
  knowledge : list Sentence.t;
  parent : list nat
}.

Definition __init__ (height width : Z) : t := mk height width ∅ ∅ ∅ [] [].

Definition mark_mine (self : t) (cell : Cell) : t :=
  mk (height self) (width self) (moves_made self)
     (mines self ∪ {[cell]}) (safes self)
     (map (λ sentence, Sentence.mark_mine sentence cell) (knowledge self))
     (parent self).

Definition mark_safe (self : t) (cell : Cell) : t :=
  mk (height self) (width self) (moves_made self)
     (mines self) (safes self ∪ {[cell]})
     (map (λ sentence, Sentence.mark_safe sentence cell) (knowledge self))
     (parent self).

(** Body of the two nested loops of [get_sentence] at [(i, j)]; the
    accumulator is the pair of local variables [(neighbors, score)]. *)
Definition visit (self : t) (cell : Cell) (acc : gset Cell * Z) (i j : Z)
  : gset Cell * Z :=
  if decide ((i, j) = cell) then acc
  else if decide ((0 ≤ i < height self) ∧ (0 ≤ j < width self)) then
    let score := if decide ((i, j) ∈ mines self) then acc.2 - 1 else acc.2 in
    let neighbors :=
      if decide (((i, j) ∉ mines self) ∧ ((i, j) ∉ safes self))
      then acc.1 ∪ {[(i, j)]} else acc.1 in
    (neighbors, score)
  else acc.

Definition get_sentence (self : t) (cell : Cell) (score : Z) : Sentence.t :=
  let acc :=
    foldl (λ acc i,
             foldl (λ acc j, visit self cell acc i j) acc
                   (range (cell.2 - 1) (cell.2 + 2)))
          (∅, score) (range (cell.1 - 1) (cell.1 + 2)) in
  Sentence.__init__ acc.1 acc.2.

Definition inferences (sentence_a sentence_b : Sentence.t) : option Sentence.t :=
  if decide (size (Sentence.cells sentence_a) = 0%nat) then None
  else if decide (Sentence.cells sentence_a ⊆ Sentence.cells sentence_b) then
    let new_sentence :=
      Sentence.__init__
        (Sentence.cells sentence_b ∖ Sentence.cells sentence_a)
        (Sentence.count sentence_b - Sentence.count sentence_a) in
    if decide (size (Sentence.cells new_sentence) ≠ 0%nat)
    then Some new_sentence else None
  else None.

(** [l[i]] at an index produced by [range(len(...))]. *)
Definition item {A : Type} (l : list A) (i : nat) : result A :=
  match l !! i with Some x => Ok x | None => Raise IndexError end.

(** First loop of [add_knowledge]: every sentence concludes, and what it
    knows is folded into [self.safes] and [self.mines]. The accumulator
    holds the sentences already visited and the two sets. *)
Definition sweep_step (acc : list Sentence.t * gset Cell * gset Cell)
    (sentence : Sentence.t) : list Sentence.t * gset Cell * gset Cell :=
  let '(visited, safes, mines) := acc in
  let sentence := Sentence.conclude sentence in
  (visited ++ [sentence],
   safes ∪ Sentence.known_safes sentence,
   mines ∪ Sentence.known_mines sentence).

Definition sweep (self : t) : t :=
  let '(kn, safes, mines) :=
    foldl sweep_step ([], safes self, mines self) (knowledge self) in
  mk (height self) (width self) (moves_made self) mines safes kn (parent self).

(** Body of the pairwise loops at [(i, j)], on the pair of lists
    [(self.knowledge, self.parent)]. *)
Definition pair_step (i : nat) (kp : list Sentence.t * list nat) (j : nat)
  : result (list Sentence.t * list nat) :=
  if decide (i = j) then Ok kp
  else
    p ← item kp.2 i;
    if decide (p = j) then Ok kp
    else
      a ← item kp.1 i;
      b ← item kp.1 j;
      match inferences a b with
      | Some sent =>
          if decide (size (Sentence.cells sent) ≠ 0%nat)
          then Ok (kp.1 ++ [sent], kp.2 ++ [j])
          else Ok kp
      | None => Ok kp
      end.

(** [for j in range(len(self.knowledge))]: the bound is read when the
    loop over [j] starts. *)
Definition inner_loop (kp : list Sentence.t * list nat) (i : nat)
  : result (list Sentence.t * list nat) :=
  foldM (pair_step i) kp (seq 0 (length kp.1)).

(** [for i in range(len(self.knowledge))]: the bound is read once. *)
Definition pairwise (kp : list Sentence.t * list nat)
  : result (list Sentence.t * list nat) :=
  foldM inner_loop kp (seq 0 (length kp.1)).

Definition infer_all (self : t) : result t :=
  kp ← pairwise (knowledge self, parent self);
  Ok (mk (height self) (width self) (moves_made self) (mines self)
         (safes self) kp.1 kp.2).

(** Everything [add_knowledge] does before its two loops. *)
Definition observe (self : t) (cell : Cell) (count : Z) : t :=
  let self := mk (height self) (width self) (moves_made self ∪ {[cell]})
                 (mines self) (safes self) (knowledge self) (parent self) in
  let self := mark_safe self cell in
  let self := mk (height self) (width self) (moves_made self)
                 (mines self) (safes self)
                 (knowledge self ++ [get_sentence self cell count])
                 (parent self) in
  mk (height self) (width self) (moves_made self) (mines self) (safes self)
     (knowledge self) (parent self ++ [(length (knowledge self) - 1)%nat]).

Definition add_knowledge (self : t) (cell : Cell) (count : Z) : result t :=
  infer_all (sweep (observe self cell count)).

(** [for move in self.safes]: the interpreter goes through the set in an
    order of its own, here the list [order]. *)
Fixpoint make_safe_move (self : t) (order : list Cell) : option Cell :=
  match order with
  | [] => None
  | move :: order' =>
      if decide (move ∉ moves_made self) then Some move
      else make_safe_move self order'
  end.

(** The list [possible_places] that the two loops of [make_random_move]
    build. *)
Definition possible_places (self : t) : list Cell :=
  foldl (λ places i,
           foldl (λ places j,
                    if decide (((i, j) ∉ moves_made self)
                               ∧ ((i, j) ∉ mines self))
                    then places ++ [(i, j)] else places)
                 places (range 0 (width self)))
        [] (range 0 (height self)).

(** [random.sample(possible_places, 1)[0]] is one element of the list,
    the one at the raw draw [r] reduced modulo the length. *)
Definition make_random_move (self : t) (r : Z) : option Cell :=
  let places := possible_places self in
  if decide (length places = 0%nat) then None
  else places !! Z.to_nat (r `mod` Z.of_nat (length places)).

(** A driver feeding a sequence of observations, one call each. *)
Definition feed (self : t) (obs : list (Cell * Z)) : result t :=
  foldM (λ self o, add_knowledge self o.1 o.2) self obs.

End MinesweeperAI.


(** * Vocabulary of the statements *)

Section BoardVocabulary.
Import Minesweeper.

(** [board[i][j]] at a cell with non-negative coordinates. *)
Definition cell_at (board : list (list bool)) (c : Cell) : option bool :=
  row ← board !! Z.to_nat c.1; row !! Z.to_nat c.2.

(** What ties [self.board] to [self.mines]: the field has [h] rows of
    [w] cells, the mines lie on the grid, and a cell of the grid holds
    [True] exactly when it is a mine. *)
Record board_inv (h w : Z) (mines : gset Cell) (board : list (list bool))
  : Prop := {
  inv_height : length board = Z.to_nat h;
  inv_width : Forall (λ row, length row = Z.to_nat w) board;
  inv_grid : ∀ c, c ∈ mines → (0 ≤ c.1 < h) ∧ (0 ≤ c.2 < w);
  inv_cells : ∀ c, 0 ≤ c.1 < h → 0 ≤ c.2 < w →
                   cell_at board c = Some (bool_decide (c ∈ mines))
}.

Definition board_ok (self : Minesweeper.t) : Prop :=
  board_inv (height self) (width self) (mines self) (board self).

(** The field once [self.board[i][j] = True] has run for the cell [c]. *)
Definition set_mine (board : list (list bool)) (c : Cell) : list (list bool) :=
  match board !! Z.to_nat c.1 with
  | Some row => <[Z.to_nat c.1 := <[Z.to_nat c.2 := true]> row]> board
  | None => board
  end.


End BoardVocabulary.

Section EngineVocabulary.
Import Sentence MinesweeperAI.

(** The count of a candidate is in range when it is neither negative
    nor larger than the number of cells of the candidate. *)
Definition count_in_range (s : Sentence.t) : Prop :=
  0 ≤ count s ≤ Z.of_nat (size (cells s)).

(** [c] is one of the eight cells around [cell]. *)
Definition neighbor (cell c : Cell) : Prop :=
  c ≠ cell
  ∧ (cell.1 - 1 ≤ c.1 ≤ cell.1 + 1)
  ∧ (cell.2 - 1 ≤ c.2 ≤ cell.2 + 1).

Definition in_bounds (self : MinesweeperAI.t) (c : Cell) : Prop :=
  (0 ≤ c.1 < height self) ∧ (0 ≤ c.2 < width self).

#[global] Instance neighbor_dec cell c : Decision (neighbor cell c).
Proof. unfold neighbor. apply _. Defined.

#[global] Instance in_bounds_dec self c : Decision (in_bounds self c).
Proof. unfold in_bounds. apply _. Defined.

(** The 3 x 3 block of cells the two loops go through, in their order. *)
Definition block (cell : Cell) : list Cell :=
  i ← range (cell.1 - 1) (cell.1 + 2);
  j ← range (cell.2 - 1) (cell.2 + 2);
  [(i, j)].

(** What one visit of the loop body does to [(neighbors, score)]. *)
Definition undetermined (self : MinesweeperAI.t) (cell c : Cell) : Prop :=
  c ≠ cell ∧ in_bounds self c ∧ (c ∉ mines self) ∧ (c ∉ safes self).

Definition confirmed_mine (self : MinesweeperAI.t) (cell c : Cell) : Prop :=
  c ≠ cell ∧ in_bounds self c ∧ c ∈ mines self.

#[global] Instance undetermined_dec self cell c :
  Decision (undetermined self cell c).
Proof. unfold undetermined. apply _. Defined.

#[global] Instance confirmed_mine_dec self cell c :
  Decision (confirmed_mine self cell c).
Proof. unfold confirmed_mine. apply _. Defined.

(** The two parallel lists have one entry per sentence. *)
Definition parallel (kp : list Sentence.t * list nat) : Prop :=
  length kp.2 = length kp.1.

Definition well_formed (self : MinesweeperAI.t) : Prop :=
  parallel (knowledge self, parent self).

(** A sentence as [inferences] returns it: cells, and nothing known. *)
Definition fresh (s : Sentence.t) : Prop :=
  known_safes s = ∅ ∧ known_mines s = ∅ ∧ cells s ≠ ∅.

Definition derived (kn : list Sentence.t) (s : Sentence.t) : Prop :=
  ∃ a b, a ∈ kn ∧ b ∈ kn ∧ inferences a b = Some s.

(** [kp'] is [kp] with fresh derived sentences appended. *)
Definition appended (kp kp' : list Sentence.t * list nat) : Prop :=
  parallel kp'
  ∧ ∃ extra, kp'.1 = kp.1 ++ extra
             ∧ Forall (λ s, fresh s ∧ derived kp'.1 s) extra.

(** The engine is at a fixed point when one more round of the two loops
    of [add_knowledge] confirms no cell and appends no sentence. *)
Definition at_fixed_point (self : MinesweeperAI.t) : Prop :=
  safes (sweep self) = safes self
  ∧ mines (sweep self) = mines self
  ∧ ∀ self', infer_all (sweep self) = Ok self' →
             length (knowledge self') = length (knowledge self).

(** One call of [add_knowledge] removes nothing from the three sets. *)
Definition grown (self self' : MinesweeperAI.t) : Prop :=
  moves_made self ⊆ moves_made self'
  ∧ safes self ⊆ safes self'
  ∧ mines self ⊆ mines self'.

(** The three ways a sentence changes: [conclude] alone, and the two marks
    of a cell. *)
Inductive update (s : Sentence.t) : Sentence.t → Prop :=
  | update_conclude : update s (conclude s)
  | update_mark_safe (c : Cell) : update s (Sentence.mark_safe s c)
  | update_mark_mine (c : Cell) : update s (Sentence.mark_mine s c).

(** A sentence is resolved when the cells it still holds can be neither
    all safe nor all mines by its own count. *)
Definition resolved (s : Sentence.t) : Prop :=
  cells s ≠ ∅ → count s ≠ 0 ∧ count s ≠ Z.of_nat (size (cells s)).

(** The sentence [s] is true of the mine layout [M]: as long as it holds
    cells its count is the number of mines among them, and what it knows
    is right. *)
Definition holds (M : gset Cell) (s : Sentence.t) : Prop :=
  (cells s ≠ ∅ → count s = Z.of_nat (size (cells s ∩ M)))
  ∧ known_safes s ## M
  ∧ known_mines s ⊆ M.

(** The engine is right about the mine layout [M]. *)
Definition sound (M : gset Cell) (self : MinesweeperAI.t) : Prop :=
  mines self ⊆ M
  ∧ safes self ## M
  ∧ Forall (holds M) (knowledge self).

(** The number of mines of [M] around [cell] on a board of [h] rows and
    [w] columns: what a truthful board reports for [cell]. *)
Definition mines_around (h w : Z) (M : gset Cell) (cell : Cell) : Z :=
  Z.of_nat (size (filter (λ c, neighbor cell c
                               ∧ (0 ≤ c.1 < h) ∧ (0 ≤ c.2 < w)) M)).

(** An observation of a board of [h] rows and [w] columns with the mines
    [M]: the cell is no mine and the count is the true one. *)
Definition truthful (h w : Z) (M : gset Cell) (o : Cell * Z) : Prop :=
  (o.1 ∉ M) ∧ o.2 = mines_around h w M o.1.

(** Every index of [self.parent] points into [self.knowledge]. *)
Definition parents_valid (kp : list Sentence.t * list nat) : Prop :=
  Forall (λ p, (p < length kp.1)%nat) kp.2.

(** The cells of a board of [h] rows and [w] columns, row by row. *)
Definition grid (h w : Z) : list Cell :=
  i ← range 0 h; j ← range 0 w; [(i, j)].

(** A cell that [make_random_move] may choose: on the board, no move made
    yet, and no confirmed mine. *)
Definition eligible (self : MinesweeperAI.t) (c : Cell) : Prop :=
  in_bounds self c ∧ (c ∉ moves_made self) ∧ (c ∉ mines self).

(** The revealed cells are accounted for: each is confirmed safe, no
    sentence holds one of them, and the sentences hold cells of the board
    only. *)
Definition tidy (self : MinesweeperAI.t) : Prop :=
  moves_made self ⊆ safes self
  ∧ Forall (λ s, cells s ## moves_made self
                 ∧ ∀ c, c ∈ cells s → in_bounds self c)
           (knowledge self).

(** What the pairwise loops keep of the two lists they grow, [kp0] being
    the lists they started from. *)
Definition grown_from (kp0 kp : list Sentence.t * list nat) : Prop :=
  parallel kp ∧ parents_valid kp
  ∧ kp0.1 `prefix_of` kp.1 ∧ kp0.2 `prefix_of` kp.2.

End EngineVocabulary.

(** * Properties *)

(** ** Sentence *)

Section SentenceFacts.
Import Sentence.

Lemma size_zero_iff (X : gset Cell) : Z.of_nat (size X) = 0 ↔ X = ∅.
Proof.
  split.
  - intros H. apply leibniz_equiv, size_empty_iff. lia.
  - intros ->. by rewrite size_empty.
Qed.

Lemma conclude_count (s : t) : count (conclude s) = count s.
Proof. unfold conclude. repeat case_decide; reflexivity. Qed.

(** A sentence whose count is zero puts all its cells in [safe_cells]. *)
Lemma conclude_zero (s : t) :
  count s = 0 →
  conclude s = mk ∅ 0 (safe_cells s ∪ cells s) (mines_cells s).
Proof.
  intros H0. unfold conclude.
  destruct (decide (count s = 0)) as [_|?];
    [cbn [cells count safe_cells mines_cells]|done].
  rewrite size_empty, H0.
  destruct (decide (0 = Z.of_nat 0)) as [_|?]; [|done].
  f_equal. set_solver.
Qed.

(** A sentence with as many mines as cells (and at least one) puts all
    its cells in [mines_cells]. *)
Lemma conclude_full (s : t) :
  count s ≠ 0 → count s = Z.of_nat (size (cells s)) →
  conclude s = mk ∅ (count s) (safe_cells s) (mines_cells s ∪ cells s).
Proof.
  intros Hne Hfull. unfold conclude.
  destruct (decide (count s = 0)) as [?|_]; [done|].
  by destruct (decide (count s = Z.of_nat (size (cells s)))).
Qed.

Lemma conclude_other (s : t) :
  count s ≠ 0 → count s ≠ Z.of_nat (size (cells s)) → conclude s = s.
Proof.
  intros Hne Hnf. unfold conclude.
  destruct (decide (count s = 0)) as [?|_]; [done|].
  by destruct (decide (count s = Z.of_nat (size (cells s)))).
Qed.

(** C9. [conclude] is idempotent: a second call right after the first
    leaves the cells, the count and both known sets as the first call
    left them. *)
Theorem conclude_idempotent (s : t) : conclude (conclude s) = conclude s.
Proof.
  destruct (decide (count s = 0)) as [H0|Hne].
  - rewrite (conclude_zero s H0). rewrite conclude_zero by done.
    cbn [cells count safe_cells mines_cells]. f_equal; set_solver.
  - destruct (decide (count s = Z.of_nat (size (cells s)))) as [Hf|Hnf].
    + rewrite (conclude_full s Hne Hf).
      apply conclude_other; cbn [cells count]; [done|].
      rewrite size_empty. simpl. done.
    + rewrite (conclude_other s Hne Hnf). by apply conclude_other.
Qed.

End SentenceFacts.

Section SentenceConstruction.
Import Sentence.

(** C10. The constructor performs no simplification: the new sentence
    holds the given cells and count and knows no safe cell and no mine,
    whatever the count. The cells are resolved by the first call of
    [conclude], [mark_safe] or [mark_mine]: with a count of zero they
    all become known safes, with a count equal to their number they all
    become known mines. *)
Theorem init_performs_no_simplification (cells0 : gset Cell) (count0 : Z) :
  let s := __init__ cells0 count0 in
  (cells s = cells0 ∧ count s = count0
     ∧ known_safes s = ∅ ∧ known_mines s = ∅)
  ∧ (count0 = 0 →
       known_safes (conclude s) = cells0 ∧ cells (conclude s) = ∅)
  ∧ (count0 ≠ 0 → count0 = Z.of_nat (size cells0) →
       known_mines (conclude s) = cells0 ∧ cells (conclude s) = ∅)
  ∧ (∀ c, c ∈ cells0 → count0 = 0 →
       known_safes (mark_safe s c) = cells0 ∧ cells (mark_safe s c) = ∅)
  ∧ (∀ c, c ∈ cells0 → count0 = Z.of_nat (size cells0) →
       known_mines (mark_mine s c) = cells0 ∧ cells (mark_mine s c) = ∅).
Proof.
  intros s. subst s. unfold __init__, known_safes, known_mines.
  split; [done|]. split; [|split; [|split]].
  - intros ->. rewrite conclude_zero by done.
    cbn [cells count safe_cells mines_cells]. split; [set_solver|done].
  - intros Hne Hf. rewrite conclude_full by done.
    cbn [cells count safe_cells mines_cells]. split; [set_solver|done].
  - intros c Hc ->. unfold mark_safe. cbn [cells count safe_cells mines_cells].
    destruct (decide (c ∉ cells0)) as [?|_]; [done|].
    rewrite conclude_zero by done.
    cbn [cells count safe_cells mines_cells]. split; [|done].
    apply set_eq. intros x. destruct (decide (x = c)); set_solver.
  - intros c Hc Hf. unfold mark_mine. cbn [cells count safe_cells mines_cells].
    destruct (decide (c ∉ cells0)) as [?|_]; [done|].
    assert (Hsz : Z.of_nat (size (cells0 ∖ {[c]})) = count0 - 1).
    { rewrite size_difference by set_solver. rewrite size_singleton.
      assert (size cells0 ≠ 0%nat); [|lia].
      apply size_non_empty_iff. set_solver. }
    assert (Hun : ∅ ∪ {[c]} ∪ cells0 ∖ {[c]} = cells0).
    { apply set_eq. intros x. destruct (decide (x = c)); set_solver. }
    destruct (decide (count0 - 1 = 0)) as [H1|H1].
    + rewrite conclude_zero by done.
      cbn [cells count safe_cells mines_cells]. split; [|done].
      assert (cells0 ∖ {[c]} = ∅) as He.
      { apply size_zero_iff. lia. }
      rewrite He in Hun. set_solver.
    + rewrite conclude_full by (cbn [cells count]; first [done|lia]).
      cbn [cells count safe_cells mines_cells]. by split.
Qed.

Lemma init_performs_no_simplification_witness :
  (let s := __init__ {[ (0, 1); (1, 0) ]} 0 in
   known_safes (conclude s) = {[ (0, 1); (1, 0) ]} ∧ cells (conclude s) = ∅)
  ∧ (let s := __init__ {[ (0, 1); (1, 0) ]} 2 in
     known_mines (conclude s) = {[ (0, 1); (1, 0) ]} ∧ cells (conclude s) = ∅).
Proof.
  split.
  - apply (init_performs_no_simplification {[ (0, 1); (1, 0) ]} 0).
    reflexivity.
  - apply (init_performs_no_simplification {[ (0, 1); (1, 0) ]} 2).
    + lia.
    + vm_compute. reflexivity.
Defined.

End SentenceConstruction.

(** ** Subset elimination *)

Section Inferences.
Import Sentence MinesweeperAI.

Lemma size_zero_nat (X : gset Cell) : size X = 0%nat ↔ X = ∅.
Proof. rewrite size_empty_iff. apply leibniz_equiv_iff. Qed.

(** With a cell in [a], all of them in [b], and a cell of [b] left over,
    the candidate is returned, whatever its count. *)
Lemma inferences_candidate (a b : Sentence.t) :
  cells a ≠ ∅ → cells a ⊆ cells b → cells b ∖ cells a ≠ ∅ →
  inferences a b
  = Some (Sentence.__init__ (cells b ∖ cells a) (count b - count a)).
Proof.
  intros Ha Hsub Hd. unfold inferences. cbn [cells Sentence.__init__].
  destruct (decide (size (cells a) = 0%nat)) as [Hz|_].
  { by apply size_zero_nat in Hz. }
  destruct (decide (cells a ⊆ cells b)) as [_|?]; [|done].
  destruct (decide (size (cells b ∖ cells a) ≠ 0%nat)) as [_|Hz]; [done|].
  destruct Hd. apply size_zero_nat. lia.
Qed.

(** C2. [inferences a b] is [None] when [a] has no cell; when [a] has a
    cell and its cells all belong to [b], it is a sentence whose cells are
    [b.cells - a.cells] and whose count is [b.count - a.count], with
    nothing known yet, provided that difference of cells is not empty; it
    is [None] in every other case. So a sentence is returned only for a
    non-empty [a] included in [b], and it then has those cells, not
    empty, and that count. *)
Theorem inferences_subset_elimination (a b : Sentence.t) :
  (cells a = ∅ → inferences a b = None)
  ∧ (cells a ≠ ∅ → cells a ⊆ cells b → cells b ∖ cells a ≠ ∅ →
       ∃ s, inferences a b = Some s
            ∧ cells s = cells b ∖ cells a
            ∧ count s = count b - count a
            ∧ known_safes s = ∅ ∧ known_mines s = ∅)
  ∧ (cells a ⊆ cells b → cells b ∖ cells a = ∅ → inferences a b = None)
  ∧ (cells a ⊈ cells b → inferences a b = None)
  ∧ (∀ s, inferences a b = Some s →
          cells a ≠ ∅ ∧ cells a ⊆ cells b
          ∧ cells s = cells b ∖ cells a ∧ cells s ≠ ∅
          ∧ count s = count b - count a
          ∧ known_safes s = ∅ ∧ known_mines s = ∅).
Proof.
  split; [|split; [|split; [|split]]].
  - unfold inferences. intros Ha.
    destruct (decide (size (cells a) = 0%nat)) as [_|Hn]; [done|].
    destruct Hn. by apply size_zero_nat.
  - intros Ha Hsub Hd. rewrite inferences_candidate by done.
    eexists. split; [reflexivity|]. by repeat split.
  - unfold inferences. cbn [cells Sentence.__init__]. intros Hsub Hd.
    destruct (decide (size (cells a) = 0%nat)) as [_|_]; [done|].
    destruct (decide (cells a ⊆ cells b)) as [_|?]; [|done].
    destruct (decide (size (cells b ∖ cells a) ≠ 0%nat)) as [Hz|_]; [|done].
    destruct Hz. by apply size_zero_nat.
  - unfold inferences. intros Hsub.
    destruct (decide (size (cells a) = 0%nat)) as [_|_]; [done|].
    by destruct (decide (cells a ⊆ cells b)).
  - unfold inferences. cbn [cells Sentence.__init__]. intros s.
    destruct (decide (size (cells a) = 0%nat)) as [|Ha]; [discriminate|].
    destruct (decide (cells a ⊆ cells b)) as [Hsub|]; [|discriminate].
    destruct (decide (size (cells b ∖ cells a) ≠ 0%nat)) as [Hd|];
      [|discriminate].
    intros [= <-]. rewrite size_zero_nat in Ha, Hd.
    cbn [cells count]. by repeat split.
Qed.

Lemma inferences_subset_elimination_witness :
  ∃ s, inferences (Sentence.__init__ {[ (0, 0) ]} 1)
                  (Sentence.__init__ {[ (0, 0); (0, 1); (0, 2) ]} 2) = Some s
       ∧ cells s = {[ (0, 1); (0, 2) ]}
       ∧ count s = 1.
Proof.
  destruct (proj1 (proj2 (inferences_subset_elimination
                            (Sentence.__init__ {[ (0, 0) ]} 1)
                            (Sentence.__init__ {[ (0, 0); (0, 1); (0, 2) ]} 2))))
    as (s & Hs & Hcells & Hcount & _).
  - vm_compute. discriminate.
  - apply (bool_decide_unpack _). vm_compute. exact I.
  - vm_compute. discriminate.
  - exists s. split; [exact Hs|]. rewrite Hcells, Hcount.
    split; vm_compute; reflexivity.
Defined.

(** C3, as the specification states it, fails: from [{(0,0)} = 1] and
    [{(0,0), (0,1)} = 0] the function returns the sentence
    [{(0,1)} = -1], and no error. *)
Lemma inferences_accepts_negative_count :
  ∃ s, inferences (Sentence.__init__ {[ (0, 0) ]} 1)
                  (Sentence.__init__ {[ (0, 0); (0, 1) ]} 0) = Some s
       ∧ cells s = {[ (0, 1) ]} ∧ count s = -1 ∧ ¬ count_in_range s.
Proof.
  eexists. split; [vm_compute; reflexivity|].
  split; [reflexivity|]. split; [reflexivity|].
  unfold count_in_range. cbn [count]. lia.
Qed.

(** C3, amended. [inferences] checks no range and reports no error: when
    the candidate has a count that is negative or larger than its number
    of cells, the candidate is returned all the same. *)
Theorem inferences_returns_out_of_range_candidate (a b : Sentence.t) :
  let candidate :=
    Sentence.__init__ (cells b ∖ cells a) (count b - count a) in
  cells a ≠ ∅ → cells a ⊆ cells b → cells candidate ≠ ∅ →
  ¬ count_in_range candidate →
  inferences a b = Some candidate.
Proof.
  intros candidate Ha Hsub Hd _.
  by apply inferences_candidate.
Qed.

Lemma inferences_returns_out_of_range_candidate_witness :
  inferences (Sentence.__init__ {[ (0, 0) ]} 1)
             (Sentence.__init__ {[ (0, 0); (0, 1) ]} 0)
  = Some (Sentence.__init__ ({[ (0, 0); (0, 1) ]} ∖ {[ (0, 0) ]}) (0 - 1)).
Proof.
  pose proof (inferences_returns_out_of_range_candidate
                (Sentence.__init__ {[ (0, 0) ]} 1)
                (Sentence.__init__ {[ (0, 0); (0, 1) ]} 0)) as H.
  cbn [cells count Sentence.__init__] in H. apply H.
  - vm_compute. discriminate.
  - apply (bool_decide_unpack _). vm_compute. exact I.
  - vm_compute. discriminate.
  - unfold count_in_range. cbn [count Sentence.__init__]. lia.
Defined.

End Inferences.

(** ** Building the sentence of an observation *)

Section GetSentence.
Import Sentence MinesweeperAI.

Lemma range_three (c : Z) : range (c - 1) (c + 2) = [c - 1; c; c + 1].
Proof.
  unfold range. replace (c + 2 - (c - 1)) with 3 by lia.
  unfold seqZ. change (Z.to_nat 3) with 3%nat. cbn [seq fmap list_fmap].
  repeat (apply (f_equal2 cons); [lia|]). reflexivity.
Qed.

Lemma block_cells (ci cj : Z) :
  block (ci, cj)
  = [(ci - 1, cj - 1); (ci - 1, cj); (ci - 1, cj + 1);
     (ci, cj - 1); (ci, cj); (ci, cj + 1);
     (ci + 1, cj - 1); (ci + 1, cj); (ci + 1, cj + 1)].
Proof. unfold block. cbn [fst snd]. rewrite !range_three. reflexivity. Qed.

Lemma elem_of_block (cell c : Cell) :
  c ∈ block cell
  ↔ (cell.1 - 1 ≤ c.1 ≤ cell.1 + 1) ∧ (cell.2 - 1 ≤ c.2 ≤ cell.2 + 1).
Proof.
  destruct cell as [ci cj], c as [i j]. rewrite block_cells. cbn [fst snd].
  rewrite !elem_of_cons, elem_of_nil. split.
  - intros H. repeat (destruct H as [H|H]; [injection H; intros; lia|]). done.
  - intros [Hi Hj].
    assert (i = ci - 1 ∨ i = ci ∨ i = ci + 1) as Hi' by lia.
    assert (j = cj - 1 ∨ j = cj ∨ j = cj + 1) as Hj' by lia.
    destruct Hi' as [->|[->| ->]], Hj' as [->|[->| ->]]; tauto.
Qed.

Lemma NoDup_block (cell : Cell) : NoDup (block cell).
Proof.
  destruct cell as [ci cj]. rewrite block_cells.
  repeat (apply NoDup_cons; split;
          [rewrite ?elem_of_cons, elem_of_nil; intros H;
           repeat (destruct H as [H|H]; [injection H; intros; lia|]); done|]).
  apply NoDup_nil_2.
Qed.

(** The nested loops are one loop over the block. *)
Lemma get_sentence_block (self : MinesweeperAI.t) (cell : Cell) (score : Z) :
  get_sentence self cell score
  = let acc := foldl (λ acc c, visit self cell acc c.1 c.2) (∅, score)
                     (block cell) in
    Sentence.__init__ acc.1 acc.2.
Proof.
  destruct cell as [ci cj]. unfold get_sentence. rewrite block_cells.
  cbn [fst snd]. rewrite !range_three. reflexivity.
Qed.

Lemma visit_loop (self : MinesweeperAI.t) (cell : Cell) (l : list Cell) :
  ∀ acc : gset Cell * Z,
    foldl (λ acc c, visit self cell acc c.1 c.2) acc l
    = (acc.1 ∪ list_to_set (filter (undetermined self cell) l),
       acc.2 - Z.of_nat (length (filter (confirmed_mine self cell) l))).
Proof.
  induction l as [|c l IH]; intros [nb sc].
  - cbn. f_equal; [set_solver|lia].
  - cbn [foldl]. rewrite IH. clear IH. destruct c as [i j].
    rewrite !filter_cons. unfold visit. cbn [fst snd].
    destruct (decide ((i, j) = cell)) as [Heq|Hne].
    { rewrite decide_False by (unfold undetermined; tauto).
      rewrite decide_False by (unfold confirmed_mine; tauto). done. }
    destruct (decide ((0 ≤ i < height self) ∧ (0 ≤ j < width self)))
      as [Hb|Hnb]; cycle 1.
    { rewrite decide_False by (unfold undetermined, in_bounds; cbn; tauto).
      rewrite decide_False by (unfold confirmed_mine, in_bounds; cbn; tauto).
      done. }
    destruct (decide ((i, j) ∈ mines self)) as [Hm|Hm].
    + rewrite decide_False by tauto.
      rewrite decide_False by (unfold undetermined; tauto).
      rewrite decide_True by done.
      cbn [fst snd length]. f_equal. lia.
    + destruct (decide ((i, j) ∉ safes self)) as [Hs|Hs].
      * rewrite decide_True by tauto.
        rewrite decide_True by done.
        rewrite decide_False by (unfold confirmed_mine; tauto).
        cbn [fst snd list_to_set]. f_equal. set_solver.
      * rewrite decide_False by tauto.
        rewrite decide_False by (unfold undetermined; tauto).
        rewrite decide_False by (unfold confirmed_mine; tauto).
        done.
Qed.

(** C4. The sentence built for an observation holds exactly the cells
    around [cell] that are on the board and in neither [self.mines] nor
    [self.safes]; its count is the reported count minus the number of
    cells around [cell] that are on the board and in [self.mines]; and
    it is a fresh sentence, with nothing known yet. *)
Theorem get_sentence_undetermined_neighbors
    (self : MinesweeperAI.t) (cell : Cell) (score : Z) :
  let s := get_sentence self cell score in
  (∀ c, c ∈ cells s
        ↔ neighbor cell c ∧ in_bounds self c
          ∧ (c ∉ mines self) ∧ (c ∉ safes self))
  ∧ count s
    = score
      - Z.of_nat (size (filter (λ c, neighbor cell c ∧ in_bounds self c)
                               (mines self)))
  ∧ known_safes s = ∅ ∧ known_mines s = ∅.
Proof.
  intros s. subst s. rewrite get_sentence_block. rewrite visit_loop.
  cbn [fst snd cells count Sentence.__init__ known_safes known_mines
       safe_cells mines_cells].
  split; [|split; [|done]].
  - intros c. rewrite elem_of_union, elem_of_list_to_set, list_elem_of_filter.
    rewrite elem_of_block. unfold undetermined, neighbor. set_solver.
  - f_equal. f_equal.
    rewrite <- (size_list_to_set (C := gset Cell))
      by (apply NoDup_filter, NoDup_block).
    f_equal. apply set_eq. intros c.
    rewrite elem_of_list_to_set, list_elem_of_filter, elem_of_filter.
    rewrite elem_of_block. unfold confirmed_mine, neighbor. tauto.
Qed.

End GetSentence.

(** ** The board *)

Section Board.
Import Minesweeper.

Lemma foldl_snoc_const {A B : Type} (x : A) (l : list B) (acc : list A) :
  foldl (λ a _, a ++ [x]) acc l = acc ++ replicate (length l) x.
Proof.
  revert acc. induction l as [|y l IH]; intros acc; cbn.
  - by rewrite app_nil_r.
  - rewrite IH, <- app_assoc. reflexivity.
Qed.

Lemma length_range (lo hi : Z) : length (range lo hi) = Z.to_nat (hi - lo).
Proof. unfold range. apply length_seqZ. Qed.

Lemma empty_board_replicate (h w : Z) :
  empty_board h w = replicate (Z.to_nat h) (replicate (Z.to_nat w) false).
Proof.
  unfold empty_board.
  rewrite (foldl_snoc_const false (range 0 w) []).
  rewrite (foldl_snoc_const _ (range 0 h) []).
  rewrite !length_range, !Z.sub_0_r. reflexivity.
Qed.

Lemma board_inv_empty (h w : Z) : board_inv h w ∅ (empty_board h w).
Proof.
  rewrite empty_board_replicate. split.
  - apply length_replicate.
  - apply Forall_replicate, length_replicate.
  - intros c Hc. set_solver.
  - intros c Hi Hj. unfold cell_at.
    rewrite lookup_replicate_2 by lia. cbn.
    rewrite lookup_replicate_2 by lia.
    by rewrite bool_decide_eq_false_2 by set_solver.
Qed.

Lemma getitem_front {A : Type} (l : list A) (i : Z) (x : A) :
  0 ≤ i → l !! Z.to_nat i = Some x → getitem l i = Ok x.
Proof.
  intros Hi Hx. unfold getitem.
  pose proof (lookup_lt_Some _ _ _ Hx) as Hlt.
  rewrite decide_True by lia. by rewrite Hx.
Qed.

Lemma getitem_back {A : Type} (l : list A) (i : Z) (x : A) :
  i < 0 → l !! Z.to_nat (Z.of_nat (length l) + i) = Some x → - Z.of_nat (length l) ≤ i →
  getitem l i = Ok x.
Proof.
  intros Hi Hx Hlo. unfold getitem.
  rewrite decide_False by lia. rewrite decide_True by lia. by rewrite Hx.
Qed.

Lemma getitem_outside {A : Type} (l : list A) (i : Z) :
  ¬ (- Z.of_nat (length l) ≤ i < Z.of_nat (length l)) →
  getitem l i = Raise IndexError.
Proof.
  intros Hout. unfold getitem.
  rewrite decide_False by lia. by rewrite decide_False by lia.
Qed.

Lemma setitem_front {A : Type} (l : list A) (i : Z) (x : A) :
  0 ≤ i < Z.of_nat (length l) → setitem l i x = Ok (<[Z.to_nat i := x]> l).
Proof. intros Hi. unfold setitem. by rewrite decide_True. Qed.

Lemma cell_at_row (h w : Z) (mines : gset Cell) (board : list (list bool))
    (i j : Z) :
  board_inv h w mines board → 0 ≤ i < h → 0 ≤ j < w →
  ∃ row, board !! Z.to_nat i = Some row
         ∧ length row = Z.to_nat w
         ∧ row !! Z.to_nat j = Some (bool_decide ((i, j) ∈ mines)).
Proof.
  intros Hinv Hi Hj.
  destruct (lookup_lt_is_Some_2 board (Z.to_nat i)) as [row Hrow].
  { rewrite (inv_height _ _ _ _ Hinv). lia. }
  exists row. split; [done|]. split.
  - exact (Forall_lookup_1 _ _ _ _ (inv_width _ _ _ _ Hinv) Hrow).
  - pose proof (inv_cells _ _ _ _ Hinv (i, j) Hi Hj) as Hc.
    unfold cell_at in Hc. cbn [fst snd] in Hc. by rewrite Hrow in Hc.
Qed.

Lemma board_inv_set_mine (h w : Z) (mines : gset Cell)
    (board : list (list bool)) (c : Cell) :
  board_inv h w mines board → 0 ≤ c.1 < h → 0 ≤ c.2 < w →
  board_inv h w ({[c]} ∪ mines) (set_mine board c).
Proof.
  intros Hinv Hi Hj. destruct c as [i j]. cbn [fst snd] in *.
  destruct (cell_at_row _ _ _ _ i j Hinv Hi Hj) as (row & Hrow & Hlen & _).
  unfold set_mine. cbn [fst snd]. rewrite Hrow. split.
  - rewrite length_insert. apply (inv_height _ _ _ _ Hinv).
  - apply Forall_insert; [apply (inv_width _ _ _ _ Hinv)|].
    by rewrite length_insert.
  - intros c. rewrite elem_of_union, elem_of_singleton.
    intros [->|Hc]; [done|]. by apply (inv_grid _ _ _ _ Hinv).
  - intros [i' j'] Hi' Hj'. cbn [fst snd] in *. unfold cell_at. cbn [fst snd].
    destruct (cell_at_row _ _ _ _ i' j' Hinv Hi' Hj')
      as (row' & Hrow' & Hlen' & Hb').
    destruct (decide (i' = i)) as [->|Hne].
    + rewrite list_lookup_insert_eq
        by (rewrite (inv_height _ _ _ _ Hinv); lia).
      cbn. assert (row' = row) as -> by congruence.
      destruct (decide (j' = j)) as [->|Hnej].
      * rewrite list_lookup_insert_eq by lia.
        by rewrite bool_decide_eq_true_2 by set_solver.
      * rewrite list_lookup_insert_ne by lia. rewrite Hb'.
        f_equal. apply bool_decide_ext. set_solver.
    + rewrite list_lookup_insert_ne by lia. rewrite Hrow'. cbn.
      rewrite Hb'. f_equal. apply bool_decide_ext. set_solver.
Qed.

(** One iteration of the loop on a coherent field of positive size: the
    draw picks the cell [(r1 mod h, r2 mod w)], which becomes a mine
    unless it is one already. *)
Lemma place_mines_step (h w m : Z) (mines : gset Cell)
    (board : list (list bool)) (r1 r2 : Z) (draws : list (Z * Z)) :
  0 < h → 0 < w → board_inv h w mines board → Z.of_nat (size mines) ≠ m →
  place_mines ((r1, r2) :: draws) h w m mines board
  = if decide ((r1 `mod` h, r2 `mod` w) ∈ mines)
    then place_mines draws h w m mines board
    else place_mines draws h w m ({[(r1 `mod` h, r2 `mod` w)]} ∪ mines)
                     (set_mine board (r1 `mod` h, r2 `mod` w)).
Proof.
  intros Hh Hw Hinv Hsz. cbn [place_mines].
  rewrite decide_True by done.
  unfold randrange. rewrite !decide_False by lia. cbn [mbind result_bind].
  pose proof (Z.mod_pos_bound r1 h Hh) as Hi.
  pose proof (Z.mod_pos_bound r2 w Hw) as Hj.
  destruct (cell_at_row _ _ _ _ _ _ Hinv Hi Hj) as (row & Hrow & Hlen & Hb).
  rewrite (getitem_front _ _ _ (proj1 Hi) Hrow). cbn [mbind result_bind].
  rewrite (getitem_front _ _ _ (proj1 Hj) Hb). cbn [mbind result_bind].
  destruct (decide ((r1 `mod` h, r2 `mod` w) ∈ mines)) as [Hin|Hnin].
  - by rewrite bool_decide_eq_true_2.
  - rewrite bool_decide_eq_false_2 by done. cbn [negb].
    rewrite setitem_front by lia. cbn [mbind result_bind].
    rewrite setitem_front by (rewrite (inv_height _ _ _ _ Hinv); lia).
    cbn [mbind result_bind]. unfold set_mine. cbn [fst snd]. by rewrite Hrow.
Qed.

End Board.

Section BoardConstruction.
Import Minesweeper.

(** The loop keeps the field coherent, never raises on a grid of positive
    size, and stops only with the requested number of mines. *)
Lemma place_mines_sound (h w m : Z) (draws : list (Z * Z)) :
  0 < h → 0 < w →
  ∀ (mines : gset Cell) (board : list (list bool)),
    board_inv h w mines board →
    match place_mines draws h w m mines board with
    | Ok r => board_inv h w r.1 r.2 ∧ Z.of_nat (size r.1) = m
    | Raise _ => False
    | Running => True
    end.
Proof.
  intros Hh Hw. induction draws as [|[r1 r2] draws IH]; intros mines board Hinv.
  - cbn [place_mines].
    destruct (decide (Z.of_nat (size mines) ≠ m)) as [Hne|He]; [done|].
    cbn [fst snd]. split; [done|]. by destruct (decide (Z.of_nat (size mines) = m)).
  - destruct (decide (Z.of_nat (size mines) = m)) as [He|Hne].
    + cbn [place_mines]. rewrite decide_False by tauto. by split.
    + rewrite place_mines_step by done.
      destruct (decide ((r1 `mod` h, r2 `mod` w) ∈ mines)); apply IH; [done|].
      apply board_inv_set_mine; [done|cbn [fst snd]..];
        by apply Z.mod_pos_bound.
Qed.

(** Without rows or without columns the loop cannot place a mine: it
    returns at once when no mine is asked for, and otherwise meets
    [randrange] on an empty range. *)
Lemma place_mines_degenerate (h w m : Z) (draws : list (Z * Z))
    (mines : gset Cell) (board : list (list bool))
    (r : gset Cell * list (list bool)) :
  h ≤ 0 ∨ w ≤ 0 →
  place_mines draws h w m mines board = Ok r →
  r = (mines, board) ∧ Z.of_nat (size mines) = m.
Proof.
  intros Hd. destruct draws as [|[r1 r2] draws]; cbn [place_mines];
    (destruct (decide (Z.of_nat (size mines) ≠ m)) as [Hne|He];
     [|intros [= <-]; split; [done|];
       by destruct (decide (Z.of_nat (size mines) = m))]).
  - discriminate.
  - unfold randrange. destruct (decide (h ≤ 0)); [discriminate|].
    cbn [mbind result_bind]. destruct (decide (w ≤ 0)); [discriminate|lia].
Qed.

Lemma init_sound (h w m : Z) (draws : list (Z * Z)) (b : Minesweeper.t) :
  Minesweeper.__init__ h w m draws = Ok b →
  height b = h ∧ width b = w ∧ mines_found b = ∅
  ∧ Z.of_nat (size (mines b)) = m ∧ board_ok b.
Proof.
  unfold Minesweeper.__init__, board_ok.
  destruct (place_mines draws h w m ∅ (empty_board h w)) as [r| |] eqn:Hp;
    cbn [mbind result_bind]; [|discriminate..].
  intros [= <-]. cbn [height width mines board mines_found].
  destruct (decide (0 < h ∧ 0 < w)) as [[Hh Hw]|Hd].
  - pose proof (place_mines_sound h w m draws Hh Hw _ _ (board_inv_empty h w))
      as Hs.
    rewrite Hp in Hs. tauto.
  - apply place_mines_degenerate in Hp as [-> Hm]; [|lia].
    cbn [fst snd]. do 4 (split; [done|]). apply board_inv_empty.
Qed.

Lemma init_no_raise (h w m : Z) (draws : list (Z * Z)) (e : exn) :
  0 < h → 0 < w → Minesweeper.__init__ h w m draws ≠ Raise e.
Proof.
  intros Hh Hw. unfold Minesweeper.__init__.
  pose proof (place_mines_sound h w m draws Hh Hw _ _ (board_inv_empty h w))
    as Hs.
  by destruct (place_mines draws h w m ∅ (empty_board h w)).
Qed.







End BoardConstruction.

Section BoardQueries.
Import Minesweeper.

(** An index of [-len .. len-1] reads the element at [i mod len]. *)
Lemma getitem_mod {A : Type} (l : list A) (i : Z) (x : A) :
  - Z.of_nat (length l) ≤ i < Z.of_nat (length l) →
  l !! Z.to_nat (i `mod` Z.of_nat (length l)) = Some x →
  getitem l i = Ok x.
Proof.
  intros Hi Hx. destruct (decide (0 ≤ i)) as [Hpos|Hneg].
  - rewrite Z.mod_small in Hx by lia. by apply getitem_front.
  - assert (i `mod` Z.of_nat (length l) = Z.of_nat (length l) + i) as Hm.
    { symmetry. apply (Z.mod_unique _ _ (-1)); lia. }
    rewrite Hm in Hx. apply getitem_back; [lia|done|lia].
Qed.

(** C8, as the specification states it, fails: on a 2 x 2 board whose only
    mine is [(1, 1)], the cell [(-1, -1)] lies outside the grid, and
    [is_mine] returns [True] for it instead of failing. *)
Lemma is_mine_accepts_negative_coordinates :
  ∃ b, Minesweeper.__init__ 2 2 1 [(1, 1)] = Ok b
       ∧ is_mine b (-1, -1) = Ok true.
Proof. eexists. split; vm_compute; reflexivity. Qed.

(** C8, amended. On a board as the constructor leaves it, [is_mine]
    returns the mine status of a cell of the grid; a negative coordinate
    down to [-height] (or [-width]) counts from the far edge, so that the
    status returned is the one of the cell [(i mod height, j mod width)];
    and it fails, with [IndexError], exactly when [i] is outside
    [-height .. height-1] or [j] is outside [-width .. width-1]. *)
Theorem is_mine_python_indexing (self : Minesweeper.t) (i j : Z) :
  board_ok self →
  (0 ≤ i < height self → 0 ≤ j < width self →
     is_mine self (i, j) = Ok (bool_decide ((i, j) ∈ mines self)))
  ∧ (- height self ≤ i < height self → - width self ≤ j < width self →
       is_mine self (i, j)
       = Ok (bool_decide ((i `mod` height self, j `mod` width self)
                          ∈ mines self)))
  ∧ (¬ ((- height self ≤ i < height self) ∧ (- width self ≤ j < width self)) →
       is_mine self (i, j) = Raise IndexError).
Proof.
  intros Hok. unfold board_ok in Hok.
  pose proof (inv_height _ _ _ _ Hok) as Hlen.
  assert (Hwrap : - height self ≤ i < height self → - width self ≤ j < width self →
            is_mine self (i, j)
            = Ok (bool_decide ((i `mod` height self, j `mod` width self)
                               ∈ mines self))).
  { intros Hi Hj.
    assert (0 ≤ i `mod` height self < height self) as Hi'
      by (apply Z.mod_pos_bound; lia).
    assert (0 ≤ j `mod` width self < width self) as Hj'
      by (apply Z.mod_pos_bound; lia).
    destruct (cell_at_row _ _ _ _ _ _ Hok Hi' Hj')
      as (row & Hrow & Hrlen & Hb).
    unfold is_mine.
    rewrite (getitem_mod (board self) i row).
    - cbn [mbind result_bind]. apply getitem_mod; rewrite Hrlen.
      + lia.
      + by rewrite Z2Nat.id by lia.
    - rewrite Hlen. lia.
    - rewrite Hlen. by rewrite Z2Nat.id by lia. }
  split; [|split; [done|]].
  - intros Hi Hj. rewrite Hwrap by lia. by rewrite !Z.mod_small by lia.
  - intros Hout. unfold is_mine.
    destruct (decide (- height self ≤ i < height self)) as [Hi|Hi].
    + assert (0 ≤ i `mod` height self < height self) as Hi'
        by (apply Z.mod_pos_bound; lia).
      destruct (lookup_lt_is_Some_2 (board self)
                  (Z.to_nat (i `mod` height self))) as [row Hrow]; [lia|].
      rewrite (getitem_mod (board self) i row).
      * cbn [mbind result_bind]. apply getitem_outside.
        rewrite (Forall_lookup_1 _ _ _ _ (inv_width _ _ _ _ Hok) Hrow). lia.
      * rewrite Hlen. lia.
      * rewrite Hlen. by rewrite Z2Nat.id by lia.
    + rewrite getitem_outside by (rewrite Hlen; lia). reflexivity.
Qed.

Lemma is_mine_python_indexing_witness :
  ∃ b, Minesweeper.__init__ 2 2 1 [(1, 1)] = Ok b
       ∧ is_mine b (1, 1) = Ok (bool_decide ((1, 1) ∈ mines b))
       ∧ is_mine b (-1, -1)
         = Ok (bool_decide (((-1) `mod` height b, (-1) `mod` width b) ∈ mines b))
       ∧ is_mine b (2, 0) = Raise IndexError.
Proof.
  destruct (Minesweeper.__init__ 2 2 1 [(1, 1)]) as [b| |] eqn:Hb;
    [|vm_compute in Hb; discriminate..].
  exists b. split; [reflexivity|].
  destruct (init_sound _ _ _ _ _ Hb) as (Hh & Hw & _ & _ & Hok).
  split; [|split].
  - apply (is_mine_python_indexing b 1 1 Hok); lia.
  - apply (is_mine_python_indexing b (-1) (-1) Hok); lia.
  - apply (is_mine_python_indexing b 2 0 Hok). lia.
Defined.

End BoardQueries.

(** ** The engine *)

Section Loops.

(** A loop whose body keeps an invariant and never raises under it runs
    to its end and keeps the invariant. *)
Lemma foldM_invariant {A S : Type} (body : S → A → result S) (I : S → Prop)
    (l : list A) :
  (∀ s x, x ∈ l → I s → ∃ s', body s x = Ok s' ∧ I s') →
  ∀ s, I s → ∃ s', foldM body s l = Ok s' ∧ I s'.
Proof.
  induction l as [|x l IH]; intros Hbody s Hs.
  - exists s. by split.
  - destruct (Hbody s x) as (s1 & Hx & Hs1); [left|done|].
    cbn [foldM]. rewrite Hx. cbn [mbind result_bind].
    apply IH; [|done]. intros s2 y Hy. apply Hbody. by right.
Qed.

(** What a loop keeps at every step it has kept when it returns. *)
Lemma foldM_preserved {A S : Type} (body : S → A → result S) (I : S → Prop)
    (l : list A) :
  (∀ s x s', I s → body s x = Ok s' → I s') →
  ∀ s s', I s → foldM body s l = Ok s' → I s'.
Proof.
  intros Hbody. induction l as [|x l IH]; intros s s' Hs.
  - by intros [= <-].
  - cbn [foldM]. destruct (body s x) as [s1| |] eqn:Hx;
      cbn [mbind result_bind]; [|discriminate..].
    apply IH. by eapply Hbody.
Qed.

End Loops.

Section Engine.
Import Sentence MinesweeperAI.

Lemma appended_refl (kp : list Sentence.t * list nat) :
  parallel kp → appended kp kp.
Proof.
  intros Hp. split; [done|]. exists []. by rewrite app_nil_r.
Qed.

Lemma derived_app (kn more : list Sentence.t) (s : Sentence.t) :
  derived kn s → derived (kn ++ more) s.
Proof.
  intros (a & b & Ha & Hb & Hab). exists a, b.
  rewrite !elem_of_app. tauto.
Qed.

Lemma appended_trans (kp1 kp2 kp3 : list Sentence.t * list nat) :
  appended kp1 kp2 → appended kp2 kp3 → appended kp1 kp3.
Proof.
  intros [_ (e1 & He1 & Hf1)] [Hp3 (e2 & He2 & Hf2)].
  split; [done|]. exists (e1 ++ e2). split.
  - by rewrite He2, He1, <- app_assoc.
  - apply Forall_app. split; [|done].
    eapply Forall_impl; [exact Hf1|].
    intros s [Hfr Hd]. split; [done|]. rewrite He2. by apply derived_app.
Qed.

Lemma appended_length (kp kp' : list Sentence.t * list nat) :
  appended kp kp' → (length kp.1 ≤ length kp'.1)%nat.
Proof. intros [_ (e & -> & _)]. rewrite length_app. lia. Qed.

Lemma inferences_fresh (a b s : Sentence.t) :
  inferences a b = Some s → fresh s.
Proof.
  unfold inferences.
  destruct (decide (size (cells a) = 0%nat)); [discriminate|].
  destruct (decide (cells a ⊆ cells b)); [|discriminate].
  destruct (decide (size (cells (Sentence.__init__ (cells b ∖ cells a)
                                    (count b - count a))) ≠ 0%nat))
    as [Hne|]; [|discriminate].
  intros [= <-]. split; [done|]. split; [done|].
  intros He. apply Hne. by apply size_zero_nat.
Qed.

Lemma item_lt {A : Type} (l : list A) (i : nat) :
  (i < length l)%nat → ∃ x, l !! i = Some x ∧ item l i = Ok x.
Proof.
  intros Hi. destruct (lookup_lt_is_Some_2 l i Hi) as [x Hx].
  exists x. split; [done|]. unfold item. by rewrite Hx.
Qed.

Lemma pair_step_appended (i j : nat) (kp : list Sentence.t * list nat) :
  parallel kp → (i < length kp.1)%nat → (j < length kp.1)%nat →
  ∃ kp', pair_step i kp j = Ok kp' ∧ appended kp kp'.
Proof.
  intros Hp Hi Hj. unfold pair_step.
  destruct (decide (i = j)); [exists kp; split; [done|by apply appended_refl]|].
  destruct (item_lt kp.2 i) as (p & _ & ->); [by rewrite Hp|].
  cbn [mbind result_bind].
  destruct (decide (p = j)); [exists kp; split; [done|by apply appended_refl]|].
  destruct (item_lt kp.1 i Hi) as (a & Ha & ->).
  destruct (item_lt kp.1 j Hj) as (b & Hb & ->).
  cbn [mbind result_bind].
  destruct (inferences a b) as [sent|] eqn:Hab;
    [|exists kp; split; [done|by apply appended_refl]].
  destruct (decide (size (cells sent) ≠ 0%nat));
    [|exists kp; split; [done|by apply appended_refl]].
  eexists. split; [reflexivity|]. split.
  - unfold parallel in *. cbn [fst snd]. rewrite !length_app, Hp. reflexivity.
  - exists [sent]. cbn [fst snd]. split; [done|].
    apply Forall_singleton. split; [by eapply inferences_fresh|].
    exists a, b. rewrite !elem_of_app.
    split; [left; by eapply list_elem_of_lookup_2|].
    split; [left; by eapply list_elem_of_lookup_2|done].
Qed.

Lemma inner_loop_appended (i : nat) (kp : list Sentence.t * list nat) :
  parallel kp → (i < length kp.1)%nat →
  ∃ kp', inner_loop kp i = Ok kp' ∧ appended kp kp'.
Proof.
  intros Hp Hi. unfold inner_loop.
  apply (foldM_invariant (pair_step i) (appended kp)); [|by apply appended_refl].
  intros s j Hj Hs. apply elem_of_seq in Hj.
  pose proof (appended_length _ _ Hs) as Hlen.
  destruct (pair_step_appended i j s) as (s' & Hstep & Hs'); [apply Hs|lia..|].
  exists s'. split; [done|]. by eapply appended_trans.
Qed.

Lemma pairwise_appended (kp : list Sentence.t * list nat) :
  parallel kp → ∃ kp', pairwise kp = Ok kp' ∧ appended kp kp'.
Proof.
  intros Hp. unfold pairwise.
  apply (foldM_invariant inner_loop (appended kp)); [|by apply appended_refl].
  intros s i Hi Hs. apply elem_of_seq in Hi.
  pose proof (appended_length _ _ Hs) as Hlen.
  destruct (inner_loop_appended i s) as (s' & Hstep & Hs'); [apply Hs|lia|].
  exists s'. split; [done|]. by eapply appended_trans.
Qed.

(** The first loop of [add_knowledge], in closed form. *)
Lemma sweep_loop (l : list Sentence.t) :
  ∀ (visited : list Sentence.t) (sf mn : gset Cell),
    foldl sweep_step (visited, sf, mn) l
    = (visited ++ map conclude l,
       sf ∪ ⋃ (known_safes <$> map conclude l),
       mn ∪ ⋃ (known_mines <$> map conclude l)).
Proof.
  induction l as [|s l IH]; intros visited sf mn.
  - cbn. rewrite app_nil_r. f_equal; [f_equal|]; set_solver.
  - cbn [foldl sweep_step]. rewrite IH. cbn [map fmap list_fmap union_list].
    rewrite <- app_assoc. cbn [app]. f_equal; [f_equal|]; set_solver.
Qed.

Lemma sweep_closed_form (self : MinesweeperAI.t) :
  sweep self
  = MinesweeperAI.mk (height self) (width self) (moves_made self)
      (mines self ∪ ⋃ (known_mines <$> map conclude (knowledge self)))
      (safes self ∪ ⋃ (known_safes <$> map conclude (knowledge self)))
      (map conclude (knowledge self)) (parent self).
Proof. unfold sweep. rewrite sweep_loop. reflexivity. Qed.

End Engine.

Section Observations.
Import Sentence MinesweeperAI.

(** [get_sentence] reads the size of the board and the two confirmed
    sets, and nothing else of the engine. *)
Lemma get_sentence_reads (self self' : MinesweeperAI.t) (cell : Cell) (n : Z) :
  height self = height self' → width self = width self' →
  mines self = mines self' → safes self = safes self' →
  get_sentence self cell n = get_sentence self' cell n.
Proof.
  intros Hh Hw Hm Hs. unfold get_sentence, visit.
  by rewrite Hh, Hw, Hm, Hs.
Qed.

Lemma observe_knowledge (self : MinesweeperAI.t) (cell : Cell) (n : Z) :
  knowledge (observe self cell n)
  = map (λ s, Sentence.mark_safe s cell) (knowledge self)
    ++ [get_sentence (MinesweeperAI.mark_safe self cell) cell n].
Proof.
  unfold observe. cbn [knowledge MinesweeperAI.mark_safe]. do 2 f_equal.
Qed.

Lemma observe_well_formed (self : MinesweeperAI.t) (cell : Cell) (n : Z) :
  well_formed self → well_formed (sweep (observe self cell n)).
Proof.
  unfold well_formed, parallel. cbn [fst snd]. intros Hp.
  rewrite sweep_closed_form. cbn [knowledge parent].
  rewrite length_map. unfold observe. cbn [knowledge parent MinesweeperAI.mark_safe].
  rewrite !length_app, length_map, Hp. reflexivity.
Qed.

(** What a call of [add_knowledge] leaves, when it returns. *)
Lemma add_knowledge_sets (self self' : MinesweeperAI.t) (cell : Cell) (n : Z) :
  add_knowledge self cell n = Ok self' →
  let swept := map conclude (knowledge (observe self cell n)) in
  moves_made self' = moves_made self ∪ {[cell]}
  ∧ safes self' = safes self ∪ {[cell]} ∪ ⋃ (known_safes <$> swept)
  ∧ mines self' = mines self ∪ ⋃ (known_mines <$> swept).
Proof.
  unfold add_knowledge, infer_all.
  destruct (pairwise _) as [kp| |]; cbn [mbind result_bind]; [|discriminate..].
  intros [= <-]. cbn [moves_made safes mines].
  rewrite sweep_closed_form. cbn [moves_made safes mines]. done.
Qed.

(** On a well-formed engine a call of [add_knowledge] returns: one sweep
    of [conclude] over the sentences, then sentences appended. *)
Lemma add_knowledge_shape (self : MinesweeperAI.t) (cell : Cell) (n : Z) :
  well_formed self →
  ∃ self' extra,
    add_knowledge self cell n = Ok self'
    ∧ well_formed self'
    ∧ knowledge self' = map conclude (knowledge (observe self cell n)) ++ extra
    ∧ Forall (λ s, fresh s ∧ derived (knowledge self') s) extra.
Proof.
  intros Hwf. apply (observe_well_formed self cell n) in Hwf.
  destruct (pairwise_appended _ Hwf) as (kp & Hkp & Hp & extra & Hk & Hex).
  exists (MinesweeperAI.mk (height (sweep (observe self cell n)))
            (width (sweep (observe self cell n)))
            (moves_made (sweep (observe self cell n)))
            (mines (sweep (observe self cell n)))
            (safes (sweep (observe self cell n))) kp.1 kp.2), extra.
  split; [|split; [done|split; [|done]]].
  - unfold add_knowledge, infer_all. rewrite Hkp. reflexivity.
  - cbn [knowledge]. rewrite Hk. cbn [fst]. by rewrite sweep_closed_form.
Qed.

(** C1. The code falls short of the claim, and of step 4 of the docstring
    of [add_knowledge] (mark any additional cells as safe or as mines if it
    can be concluded from the knowledge base): it runs the sweep once, then
    the pairwise loops once, and returns. On a 2 x 3 board, after the
    observations [(0,0)] with count 1 and [(0,1)] with count 1, the
    knowledge base holds at index 2 the derived sentence
    [{(0,2), (1,2)} = 0], from which both cells are safe, and yet [(0,2)]
    is not in [safes]: one more sweep would put it there, so the engine is
    not at a fixed point. The next call, for [(1,0)] with count 1, puts
    [(0,2)] in [safes] in its sweep and leaves [(0,2)] among the cells of
    the sentence at index 1: nothing was broadcast. *)
Lemma add_knowledge_stops_before_fixed_point :
  ∃ self2 self3,
    feed (MinesweeperAI.__init__ 2 3) [((0, 0), 1); ((0, 1), 1)] = Ok self2
    ∧ add_knowledge self2 (1, 0) 1 = Ok self3
    ∧ (∃ s, knowledge self2 !! 2%nat = Some s
            ∧ cells s = {[ (0, 2); (1, 2) ]} ∧ count s = 0
            ∧ known_safes s = ∅)
    ∧ ((0, 2) ∉ safes self2)
    ∧ (0, 2) ∈ safes (sweep self2)
    ∧ ¬ at_fixed_point self2
    ∧ (0, 2) ∈ safes self3
    ∧ ∃ s, knowledge self3 !! 1%nat = Some s ∧ (0, 2) ∈ cells s.
Proof.
  eexists. eexists.
  split; [vm_compute; reflexivity|].
  split; [vm_compute; reflexivity|].
  assert (∀ P (d : Decision P), bool_decide P = true → P) as Hdec
    by (intros P d; apply bool_decide_eq_true_1).
  split.
  { eexists. split; [vm_compute; reflexivity|].
    repeat split; vm_compute; reflexivity. }
  split; [apply (Hdec _ _); vm_compute; reflexivity|].
  split; [apply (Hdec _ _); vm_compute; reflexivity|].
  split.
  { intros [Hs _]. revert Hs. apply (Hdec _ _). vm_compute. reflexivity. }
  split; [apply (Hdec _ _); vm_compute; reflexivity|].
  eexists. split; [vm_compute; reflexivity|].
  apply (Hdec _ _). vm_compute. reflexivity.
Qed.

(** What a call of [add_knowledge] on a well-formed engine leaves. The
    sentences it found, and the new one, have gone through [mark_safe] for
    the observed cell and through one [conclude]; what that sweep confirms
    is added to [self.safes] and [self.mines]; the sentences that follow
    were derived by [inferences] and are not concluded yet. *)
Lemma add_knowledge_single_round
    (self : MinesweeperAI.t) (cell : Cell) (n : Z) :
  well_formed self →
  let new_sentence := get_sentence (MinesweeperAI.mark_safe self cell) cell n in
  let swept :=
    map conclude
        (map (λ s, Sentence.mark_safe s cell) (knowledge self)
         ++ [new_sentence]) in
  ∃ self' extra,
    add_knowledge self cell n = Ok self'
    ∧ moves_made self' = moves_made self ∪ {[cell]}
    ∧ safes self' = safes self ∪ {[cell]} ∪ ⋃ (known_safes <$> swept)
    ∧ mines self' = mines self ∪ ⋃ (known_mines <$> swept)
    ∧ knowledge self' = swept ++ extra
    ∧ Forall (λ s, fresh s ∧ derived (knowledge self') s) extra.
Proof.
  intros Hwf new_sentence swept.
  destruct (add_knowledge_shape self cell n Hwf)
    as (self' & extra & Hrun & _ & Hkn & Hextra).
  exists self', extra. split; [done|].
  pose proof (add_knowledge_sets _ _ _ _ Hrun) as (Hmv & Hsf & Hmn).
  rewrite observe_knowledge in Hkn, Hsf, Hmn. by repeat split.
Qed.

Lemma add_knowledge_grown (self self' : MinesweeperAI.t) (cell : Cell) (n : Z) :
  add_knowledge self cell n = Ok self' → grown self self'.
Proof.
  intros Hrun. destruct (add_knowledge_sets _ _ _ _ Hrun) as (Hmv & Hsf & Hmn).
  unfold grown. rewrite Hmv, Hsf, Hmn. set_solver.
Qed.

Lemma feed_well_formed (obs : list (Cell * Z)) (self : MinesweeperAI.t) :
  well_formed self → ∃ self', feed self obs = Ok self' ∧ well_formed self'.
Proof.
  intros Hwf. unfold feed.
  apply (foldM_invariant _ well_formed); [|done].
  intros s o _ Hs.
  destruct (add_knowledge_shape s o.1 o.2 Hs) as (s' & _ & Hrun & Hs' & _).
  by exists s'.
Qed.

(** C5. Across any sequence of calls of [add_knowledge], [moves_made],
    [safes] and [mines] only grow: each of them before the calls is
    included in the same set after the calls. On a well-formed engine,
    which every engine built by the constructor and by [add_knowledge]
    is, the calls do return. *)
Theorem confirmed_sets_only_grow
    (self : MinesweeperAI.t) (obs : list (Cell * Z)) :
  (∀ self', feed self obs = Ok self' →
     moves_made self ⊆ moves_made self'
     ∧ safes self ⊆ safes self'
     ∧ mines self ⊆ mines self')
  ∧ (well_formed self → ∃ self', feed self obs = Ok self').
Proof.
  split.
  - intros self'. unfold feed.
    apply (foldM_preserved _ (grown self)); [|unfold grown; set_solver].
    intros s o s' Hs Hrun. apply add_knowledge_grown in Hrun.
    unfold grown in *. set_solver.
  - intros Hwf. destruct (feed_well_formed obs self Hwf) as (self' & Hrun & _).
    by exists self'.
Qed.

Lemma confirmed_sets_only_grow_witness :
  ∃ self1 self2,
    add_knowledge (MinesweeperAI.__init__ 2 3) (0, 0) 1 = Ok self1
    ∧ feed self1 [((0, 1), 1); ((1, 0), 1)] = Ok self2
    ∧ moves_made self1 ⊆ moves_made self2
    ∧ safes self1 ⊆ safes self2
    ∧ mines self1 ⊆ mines self2.
Proof.
  destruct (add_knowledge (MinesweeperAI.__init__ 2 3) (0, 0) 1)
    as [self1| |] eqn:H1; [|vm_compute in H1; discriminate..].
  destruct (feed self1 [((0, 1), 1); ((1, 0), 1)])
    as [self2| |] eqn:H2.
  - exists self1, self2. split; [reflexivity|]. split; [exact H2|].
    exact (proj1 (confirmed_sets_only_grow self1 _) self2 H2).
  - exfalso. vm_compute in H1. injection H1 as <-.
    vm_compute in H2. discriminate.
  - exfalso. vm_compute in H1. injection H1 as <-.
    vm_compute in H2. discriminate.
Defined.

(** C6. Two fresh engines of the same size that are fed the same sequence
    of observations both return, with the same [safes] and the same
    [mines]: [add_knowledge] draws no random number and goes through
    lists and ranges only, never through a set. *)
Theorem same_observations_same_confirmed_sets
    (h w : Z) (obs : list (Cell * Z)) (engine1 engine2 : MinesweeperAI.t) :
  engine1 = MinesweeperAI.__init__ h w →
  engine2 = MinesweeperAI.__init__ h w →
  ∃ self1 self2,
    feed engine1 obs = Ok self1 ∧ feed engine2 obs = Ok self2
    ∧ safes self1 = safes self2 ∧ mines self1 = mines self2.
Proof.
  intros -> ->.
  destruct (feed_well_formed obs (MinesweeperAI.__init__ h w))
    as (self' & Hrun & _); [reflexivity|].
  by exists self', self'.
Qed.

Lemma same_observations_same_confirmed_sets_witness :
  ∃ self1 self2,
    feed (MinesweeperAI.__init__ 2 3) [((0, 0), 1); ((0, 1), 1)] = Ok self1
    ∧ feed (MinesweeperAI.__init__ 2 3) [((0, 0), 1); ((0, 1), 1)] = Ok self2
    ∧ safes self1 = safes self2 ∧ mines self1 = mines self2.
Proof.
  apply (same_observations_same_confirmed_sets 2 3
           [((0, 0), 1); ((0, 1), 1)]); reflexivity.
Defined.

End Observations.


(** * Further properties *)

(** ** What a sentence keeps *)

Section SentenceInvariants.
Import Sentence.

Lemma conclude_cases (s : t) :
  (count s = 0
   ∧ conclude s = mk ∅ 0 (safe_cells s ∪ cells s) (mines_cells s))
  ∨ (count s ≠ 0 ∧ count s = Z.of_nat (size (cells s))
     ∧ conclude s = mk ∅ (count s) (safe_cells s) (mines_cells s ∪ cells s))
  ∨ (count s ≠ 0 ∧ count s ≠ Z.of_nat (size (cells s)) ∧ conclude s = s).
Proof.
  destruct (decide (count s = 0)) as [H0|Hne].
  - left. split; [done|]. by apply conclude_zero.
  - right. destruct (decide (count s = Z.of_nat (size (cells s)))) as [Hf|Hnf].
    + left. split; [done|]. split; [done|]. by apply conclude_full.
    + right. split; [done|]. split; [done|]. by apply conclude_other.
Qed.

Lemma conclude_conserves (s : t) :
  cells (conclude s) ⊆ cells s
  ∧ safe_cells s ⊆ safe_cells (conclude s)
  ∧ mines_cells s ⊆ mines_cells (conclude s)
  ∧ cells (conclude s) ∪ safe_cells (conclude s) ∪ mines_cells (conclude s)
    = cells s ∪ safe_cells s ∪ mines_cells s.
Proof.
  destruct (conclude_cases s) as [[_ ->]|[(_ & _ & ->)|(_ & _ & ->)]];
    cbn [cells safe_cells mines_cells]; set_solver.
Qed.

(** No update loses a cell or takes back what the sentence knows: the
    cells it holds only shrink, its known safes and known mines only grow,
    and the three sets together stay the same. *)
Theorem sentence_update_conserves_cells (s s' : t) :
  update s s' →
  cells s' ⊆ cells s
  ∧ known_safes s ⊆ known_safes s'
  ∧ known_mines s ⊆ known_mines s'
  ∧ cells s' ∪ known_safes s' ∪ known_mines s'
    = cells s ∪ known_safes s ∪ known_mines s.
Proof.
  unfold known_safes, known_mines.
  intros [|c|c]; [apply conclude_conserves|unfold mark_safe|unfold mark_mine];
    (destruct (decide (c ∉ cells s)) as [Hc|Hc]; [set_solver|]);
    apply dec_stable in Hc.
  - pose proof (conclude_conserves
                  (mk (cells s ∖ {[c]}) (count s) (safe_cells s ∪ {[c]})
                      (mines_cells s))) as (H1 & H2 & H3 & H4).
    cbn [cells safe_cells mines_cells] in *.
    split; [set_solver|]. split; [set_solver|]. split; [set_solver|].
    rewrite H4. apply set_eq. intros x. destruct (decide (x = c)); set_solver.
  - pose proof (conclude_conserves
                  (mk (cells s ∖ {[c]}) (count s - 1) (safe_cells s)
                      (mines_cells s ∪ {[c]}))) as (H1 & H2 & H3 & H4).
    cbn [cells safe_cells mines_cells] in *.
    split; [set_solver|]. split; [set_solver|]. split; [set_solver|].
    rewrite H4. apply set_eq. intros x. destruct (decide (x = c)); set_solver.
Qed.

Lemma sentence_update_conserves_cells_witness :
  cells (mark_mine (Sentence.__init__ {[ (0, 0); (0, 1) ]} 1) (0, 0))
  ⊆ cells (Sentence.__init__ {[ (0, 0); (0, 1) ]} 1).
Proof.
  apply (sentence_update_conserves_cells
           (Sentence.__init__ {[ (0, 0); (0, 1) ]} 1)).
  apply update_mark_mine.
Defined.

Lemma conclude_resolved (s : t) : resolved (conclude s).
Proof.
  unfold resolved.
  destruct (conclude_cases s) as [[_ ->]|[(_ & _ & ->)|(? & ? & ->)]];
    cbn [cells]; done.
Qed.

(** After [conclude], and after a mark of a cell the sentence holds, the
    sentence is resolved: if cells are left, its count is neither zero nor
    the number of those cells. A mark of a cell the sentence does not
    hold changes nothing. *)
Theorem sentence_resolved_after_update (s : t) (c : Cell) :
  resolved (conclude s)
  ∧ (c ∈ cells s → resolved (mark_safe s c) ∧ resolved (mark_mine s c)
                   ∧ (c ∉ cells (mark_safe s c))
                   ∧ (c ∉ cells (mark_mine s c)))
  ∧ (c ∉ cells s → mark_safe s c = s ∧ mark_mine s c = s).
Proof.
  split; [apply conclude_resolved|]. unfold mark_safe, mark_mine. split.
  - intros Hc. rewrite !decide_False by tauto.
    split; [apply conclude_resolved|]. split; [apply conclude_resolved|].
    split.
    + pose proof (conclude_conserves
                    (mk (cells s ∖ {[c]}) (count s) (safe_cells s ∪ {[c]})
                        (mines_cells s))) as (H1 & _).
      cbn [cells] in H1. set_solver.
    + pose proof (conclude_conserves
                    (mk (cells s ∖ {[c]}) (count s - 1) (safe_cells s)
                        (mines_cells s ∪ {[c]}))) as (H1 & _).
      cbn [cells] in H1. set_solver.
  - intros Hc. by rewrite !decide_True.
Qed.

Lemma sentence_resolved_after_update_witness :
  resolved (mark_safe (Sentence.__init__ {[ (0, 0); (0, 1) ]} 1) (0, 0))
  ∧ mark_safe (Sentence.__init__ {[ (0, 0); (0, 1) ]} 1) (2, 2)
    = Sentence.__init__ {[ (0, 0); (0, 1) ]} 1.
Proof.
  pose proof (sentence_resolved_after_update
                (Sentence.__init__ {[ (0, 0); (0, 1) ]} 1) (0, 0))
    as (_ & Hin & _).
  pose proof (sentence_resolved_after_update
                (Sentence.__init__ {[ (0, 0); (0, 1) ]} 1) (2, 2))
    as (_ & _ & Hout).
  split.
  - apply Hin. apply (bool_decide_unpack _). vm_compute. exact I.
  - apply Hout. apply (bool_decide_unpack _). vm_compute. exact I.
Defined.

End SentenceInvariants.

(** ** Sentences that are true of a mine layout stay true *)

Section SentenceTruth.
Import Sentence MinesweeperAI.

Lemma conclude_holds (M : gset Cell) (s : Sentence.t) :
  holds M s → holds M (conclude s).
Proof.
  unfold holds, known_safes, known_mines. intros (Hcount & Hsafe & Hmine).
  destruct (conclude_cases s) as [[H0 ->]|[(Hne & Hf & ->)|(_ & _ & ->)]];
    cbn [cells count safe_cells mines_cells]; [| |done].
  - split; [done|]. split; [|done].
    destruct (decide (cells s = ∅)) as [He|He]; [set_solver|].
    specialize (Hcount He).
    assert (cells s ∩ M = ∅) by (apply size_zero_iff; lia). set_solver.
  - split; [done|]. split; [done|].
    assert (cells s ≠ ∅) as He.
    { intros He. rewrite He, size_empty in Hf. lia. }
    specialize (Hcount He).
    assert (cells s ∩ M = cells s) as Hall.
    { apply set_subseteq_size_eq; [set_solver|lia]. }
    set_solver.
Qed.

Lemma size_remove_mine (X M : gset Cell) (c : Cell) :
  c ∈ X → c ∈ M →
  Z.of_nat (size ((X ∖ {[c]}) ∩ M)) = Z.of_nat (size (X ∩ M)) - 1.
Proof.
  intros HX HM.
  replace ((X ∖ {[c]}) ∩ M) with ((X ∩ M) ∖ {[c]}) by set_solver.
  rewrite size_difference by set_solver. rewrite size_singleton.
  assert (size (X ∩ M) ≠ 0%nat); [|lia].
  apply size_non_empty_iff. set_solver.
Qed.

Lemma mark_safe_holds (M : gset Cell) (s : Sentence.t) (c : Cell) :
  c ∉ M → holds M s → holds M (Sentence.mark_safe s c).
Proof.
  intros Hc Hs. unfold Sentence.mark_safe.
  destruct (decide (c ∉ cells s)) as [|Hin]; [done|]. apply dec_stable in Hin.
  apply conclude_holds. destruct Hs as (Hcount & Hsafe & Hmine).
  unfold holds, known_safes, known_mines in *.
  cbn [cells count safe_cells mines_cells].
  split; [|split; [set_solver|done]].
  intros He. rewrite Hcount by set_solver. do 2 f_equal. set_solver.
Qed.

Lemma mark_mine_holds (M : gset Cell) (s : Sentence.t) (c : Cell) :
  c ∈ M → holds M s → holds M (Sentence.mark_mine s c).
Proof.
  intros Hc Hs. unfold Sentence.mark_mine.
  destruct (decide (c ∉ cells s)) as [|Hin]; [done|]. apply dec_stable in Hin.
  apply conclude_holds. destruct Hs as (Hcount & Hsafe & Hmine).
  unfold holds, known_safes, known_mines in *.
  cbn [cells count safe_cells mines_cells].
  split; [|split; [done|set_solver]].
  intros He. rewrite Hcount by set_solver.
  by rewrite size_remove_mine.
Qed.

(** What a sentence knows stays right. A sentence is true of the mine
    layout [M] when its known safes hold no mine of [M], its known mines
    are mines of [M] and, as long as it still holds cells, its count is
    the number of mines of [M] among them; nothing is said of the count of
    a sentence without cells, for [conclude] empties a sentence of mines
    and leaves its count as it was. A sentence that is true of [M] in this
    sense stays so through [conclude], through [mark_safe] of a cell that
    is no mine and through [mark_mine] of a cell that is a mine. *)
Theorem sentence_update_keeps_truth (M : gset Cell) (s : Sentence.t) (c : Cell) :
  holds M s →
  holds M (conclude s)
  ∧ (c ∉ M → holds M (Sentence.mark_safe s c))
  ∧ (c ∈ M → holds M (Sentence.mark_mine s c)).
Proof.
  intros Hs. split; [by apply conclude_holds|].
  split; intros Hc; [by apply mark_safe_holds|by apply mark_mine_holds].
Qed.

Lemma sentence_update_keeps_truth_witness :
  holds {[ (0, 1) ]} (conclude (Sentence.__init__ {[ (0, 0); (0, 1) ]} 1))
  ∧ holds {[ (0, 1) ]}
          (Sentence.mark_safe (Sentence.__init__ {[ (0, 0); (0, 1) ]} 1) (0, 0))
  ∧ holds {[ (0, 1) ]}
          (Sentence.mark_mine (Sentence.__init__ {[ (0, 0); (0, 1) ]} 1) (0, 1)).
Proof.
  assert (holds {[ (0, 1) ]} (Sentence.__init__ {[ (0, 0); (0, 1) ]} 1)) as Hs.
  { split; [intros _; vm_compute; reflexivity|].
    split; apply (bool_decide_unpack _); vm_compute; exact I. }
  pose proof (sentence_update_keeps_truth {[ (0, 1) ]} _ (0, 0) Hs)
    as (H1 & H2 & _).
  pose proof (sentence_update_keeps_truth {[ (0, 1) ]} _ (0, 1) Hs)
    as (_ & _ & H3).
  split; [exact H1|]. split.
  - apply H2. apply (bool_decide_unpack _). vm_compute. exact I.
  - apply H3. apply (bool_decide_unpack _). vm_compute. exact I.
Defined.

(** What [inferences] has checked when it returns a sentence. *)
Lemma inferences_Some (a b s : Sentence.t) :
  inferences a b = Some s →
  cells a ≠ ∅ ∧ cells a ⊆ cells b ∧ cells b ∖ cells a ≠ ∅
  ∧ s = Sentence.__init__ (cells b ∖ cells a) (count b - count a).
Proof.
  unfold inferences. cbn [cells Sentence.__init__].
  destruct (decide (size (cells a) = 0%nat)) as [|Ha]; [discriminate|].
  destruct (decide (cells a ⊆ cells b)); [|discriminate].
  destruct (decide (size (cells b ∖ cells a) ≠ 0%nat)) as [Hd|]; [|discriminate].
  intros [= <-]. rewrite size_zero_nat in Ha, Hd. done.
Qed.

Lemma inferences_holds (M : gset Cell) (a b s : Sentence.t) :
  holds M a → holds M b → inferences a b = Some s → holds M s.
Proof.
  intros (Ha & _ & _) (Hb & _ & _) Hs.
  apply inferences_Some in Hs as (Hane & Hsub & Hdne & ->).
  unfold holds, known_safes, known_mines.
  cbn [cells count safe_cells mines_cells Sentence.__init__].
  split; [|split; set_solver]. intros _.
  rewrite Ha by done. rewrite Hb by set_solver.
  replace ((cells b ∖ cells a) ∩ M) with ((cells b ∩ M) ∖ (cells a ∩ M))
    by set_solver.
  rewrite (size_difference (cells b ∩ M) (cells a ∩ M)) by set_solver.
  assert (size (cells a ∩ M) ≤ size (cells b ∩ M))%nat
    by (apply subseteq_size; set_solver).
  lia.
Qed.

(** Subset elimination is sound: a sentence derived from two sentences
    that are true of the mine layout [M] is true of [M], and its count is
    then in range, neither negative nor larger than its number of cells. *)
Theorem inferences_sound (M : gset Cell) (a b s : Sentence.t) :
  holds M a → holds M b → inferences a b = Some s →
  holds M s ∧ count_in_range s.
Proof.
  intros Ha Hb Hs.
  pose proof (inferences_holds M a b s Ha Hb Hs) as Hholds.
  split; [done|].
  destruct (inferences_fresh a b s Hs) as (_ & _ & Hne).
  destruct Hholds as (Hcount & _). unfold count_in_range.
  rewrite (Hcount Hne).
  assert (size (cells s ∩ M) ≤ size (cells s))%nat
    by (apply subseteq_size; set_solver).
  lia.
Qed.

Lemma inferences_sound_witness :
  ∃ s, inferences (Sentence.__init__ {[ (0, 0); (0, 1) ]} 1)
                  (Sentence.__init__ {[ (0, 0); (0, 1); (0, 2) ]} 1) = Some s
       ∧ holds {[ (0, 1) ]} s.
Proof.
  eexists. split; [vm_compute; reflexivity|].
  apply (inferences_sound {[ (0, 1) ]}
           (Sentence.__init__ {[ (0, 0); (0, 1) ]} 1)
           (Sentence.__init__ {[ (0, 0); (0, 1); (0, 2) ]} 1)).
  - split; [intros _; vm_compute; reflexivity|].
    split; apply (bool_decide_unpack _); vm_compute; exact I.
  - split; [intros _; vm_compute; reflexivity|].
    split; apply (bool_decide_unpack _); vm_compute; exact I.
  - vm_compute. reflexivity.
Defined.

(** A derived sentence splits its second parent: its cells and the cells
    of the first parent are disjoint and together are the cells of the
    second parent, so that it holds fewer cells than the second parent; and
    the two arguments are never interchangeable, for [inferences b a]
    returns nothing. *)
Theorem inferences_splits_parent (a b s : Sentence.t) :
  inferences a b = Some s →
  cells s ## cells a
  ∧ cells s ∪ cells a = cells b
  ∧ (size (cells s) < size (cells b))%nat
  ∧ inferences b a = None.
Proof.
  intros Hs. apply inferences_Some in Hs as (Hane & Hsub & Hdne & ->).
  cbn [cells Sentence.__init__].
  split; [set_solver|]. split.
  { apply set_eq. intros x. destruct (decide (x ∈ cells a)); set_solver. }
  split.
  - rewrite size_difference by done.
    assert (size (cells a) ≠ 0%nat) by by rewrite size_zero_nat.
    assert (size (cells a) ≤ size (cells b))%nat by by apply subseteq_size.
    lia.
  - unfold inferences.
    destruct (decide (size (cells b) = 0%nat)); [done|].
    destruct (decide (cells b ⊆ cells a)); [|done]. set_solver.
Qed.

Lemma inferences_splits_parent_witness :
  ∃ s, inferences (Sentence.__init__ {[ (0, 0); (0, 1) ]} 1)
                  (Sentence.__init__ {[ (0, 0); (0, 1); (0, 2) ]} 1) = Some s
       ∧ Nat.lt (size (cells s))
                (size (cells (Sentence.__init__ {[ (0, 0); (0, 1); (0, 2) ]} 1))).
Proof.
  destruct (inferences (Sentence.__init__ {[ (0, 0); (0, 1) ]} 1)
                       (Sentence.__init__ {[ (0, 0); (0, 1); (0, 2) ]} 1))
    as [s|] eqn:Hs; [|vm_compute in Hs; discriminate].
  exists s. split; [reflexivity|].
  exact (proj1 (proj2 (proj2 (inferences_splits_parent _ _ _ Hs)))).
Defined.

End SentenceTruth.

(** ** Counting the mines around a cell *)

Section NearbyMines.
Import Minesweeper.

(** A loop whose body never raises is a plain fold. *)
Lemma foldM_pure {A S : Type} (body : S → A → result S) (g : S → A → S)
    (l : list A) :
  (∀ s x, x ∈ l → body s x = Ok (g s x)) →
  ∀ s, foldM body s l = Ok (foldl g s l).
Proof.
  induction l as [|x l IH]; intros Hbody s; [done|].
  cbn [foldM foldl]. rewrite Hbody by left. cbn [mbind result_bind].
  apply IH. intros s' y Hy. apply Hbody. by right.
Qed.

Lemma count_mine_coherent (self : Minesweeper.t) (cell : Cell)
    (count i j : Z) :
  board_ok self →
  count_mine self cell count i j
  = Ok (if decide ((i, j) ≠ cell ∧ (i, j) ∈ mines self)
        then count + 1 else count).
Proof.
  intros Hok. unfold count_mine.
  destruct (decide ((i, j) = cell)) as [Heq|Hne].
  { by rewrite decide_False by tauto. }
  destruct (decide ((0 ≤ i < height self) ∧ (0 ≤ j < width self)))
    as [[Hi Hj]|Hout].
  - destruct (cell_at_row _ _ _ _ i j Hok Hi Hj) as (row & Hrow & _ & Hb).
    rewrite (getitem_front _ _ _ (proj1 Hi) Hrow). cbn [mbind result_bind].
    rewrite (getitem_front _ _ _ (proj1 Hj) Hb). cbn [mbind result_bind].
    destruct (decide ((i, j) ∈ mines self)) as [Hm|Hm].
    + rewrite bool_decide_eq_true_2 by done. by rewrite decide_True.
    + rewrite bool_decide_eq_false_2 by done. by rewrite decide_False by tauto.
  - rewrite decide_False; [done|]. intros [_ Hm].
    apply (inv_grid _ _ _ _ Hok) in Hm. cbn [fst snd] in Hm. tauto.
Qed.

Lemma count_loop (P : Cell → Prop) `{!∀ c, Decision (P c)} (l : list Cell) :
  ∀ count : Z,
    foldl (λ count c, if decide (P c) then count + 1 else count) count l
    = count + Z.of_nat (length (filter P l)).
Proof.
  induction l as [|c l IH]; intros count; cbn [foldl].
  - cbn. lia.
  - rewrite IH, filter_cons. destruct (decide (P c)); cbn [length]; lia.
Qed.

Lemma nearby_mines_block (self : Minesweeper.t) (cell : Cell) :
  board_ok self →
  nearby_mines self cell
  = Ok (Z.of_nat (length (filter (λ c, c ≠ cell ∧ c ∈ mines self)
                                 (block cell)))).
Proof.
  intros Hok. unfold nearby_mines.
  rewrite (foldM_pure _
             (λ count i,
                foldl (λ count j,
                         if decide ((i, j) ≠ cell ∧ (i, j) ∈ mines self)
                         then count + 1 else count) count
                      (range (cell.2 - 1) (cell.2 + 2)))).
  - f_equal.
    rewrite <- (Z.add_0_l (Z.of_nat _)).
    rewrite <- (count_loop (λ c, c ≠ cell ∧ c ∈ mines self)).
    destruct cell as [ci cj]. rewrite block_cells. cbn [fst snd].
    rewrite !range_three. reflexivity.
  - intros count i _. apply foldM_pure. intros count' j _.
    by apply count_mine_coherent.
Qed.

Lemma nearby_mines_size (self : Minesweeper.t) (cell : Cell) :
  board_ok self →
  nearby_mines self cell
  = Ok (Z.of_nat (size (filter (neighbor cell) (mines self)))).
Proof.
  intros Hok. rewrite nearby_mines_block by done. do 2 f_equal.
  rewrite <- (size_list_to_set (C := gset Cell))
    by (apply NoDup_filter, NoDup_block).
  f_equal. apply set_eq. intros c.
  rewrite elem_of_list_to_set, list_elem_of_filter, elem_of_filter.
  rewrite elem_of_block. unfold neighbor. tauto.
Qed.

(** On a board as the constructor leaves it, [nearby_mines] raises
    nothing, for any cell, on the board or off it, and returns the number
    of mines among the eight cells around the cell, the cell itself left
    out: a number between 0 and 8. *)
Theorem nearby_mines_counts_neighbors (self : Minesweeper.t) (cell : Cell) :
  board_ok self →
  ∃ n, nearby_mines self cell = Ok n
       ∧ n = Z.of_nat (size (filter (neighbor cell) (mines self)))
       ∧ 0 ≤ n ≤ 8.
Proof.
  intros Hok. eexists. split; [by apply nearby_mines_size|].
  split; [done|].
  pose proof (nearby_mines_size self cell Hok) as Hsz.
  rewrite nearby_mines_block in Hsz by done. injection Hsz as <-.
  split; [lia|].
  assert (length (filter (λ c, c ≠ cell ∧ c ∈ mines self) (block cell))
          < length (block cell))%nat as Hlt.
  { apply (length_filter_lt _ _ cell); [|tauto].
    apply elem_of_block. lia. }
  destruct cell as [ci cj]. rewrite block_cells in Hlt at 2.
  cbn [length] in Hlt. lia.
Qed.

Lemma nearby_mines_counts_neighbors_witness :
  ∃ b n, Minesweeper.__init__ 2 2 1 [(1, 1)] = Ok b
         ∧ nearby_mines b (0, 0) = Ok n ∧ 0 ≤ n ≤ 8.
Proof.
  destruct (Minesweeper.__init__ 2 2 1 [(1, 1)]) as [b| |] eqn:Hb;
    [|vm_compute in Hb; discriminate..].
  destruct (init_sound _ _ _ _ _ Hb) as (_ & _ & _ & _ & Hok).
  destruct (nearby_mines_counts_neighbors b (0, 0) Hok) as (n & Hn & _ & Hr).
  exists b, n. by split.
Defined.

(** The count a board reports is the count the engine expects of a
    truthful observation. *)
Lemma nearby_mines_around (self : Minesweeper.t) (cell : Cell) :
  board_ok self →
  nearby_mines self cell
  = Ok (mines_around (height self) (width self) (mines self) cell).
Proof.
  intros Hok. rewrite nearby_mines_size by done.
  unfold mines_around. do 3 f_equal. apply set_eq. intros c.
  rewrite !elem_of_filter. split; [|tauto].
  intros [Hn Hm]. pose proof (inv_grid _ _ _ _ Hok c Hm). tauto.
Qed.

End NearbyMines.

(** ** The engine is right about the board *)

Section EngineTruth.
Import Sentence MinesweeperAI.

Lemma get_sentence_closed_form (self : MinesweeperAI.t) (cell : Cell) (n : Z) :
  get_sentence self cell n
  = Sentence.__init__
      (∅ ∪ list_to_set (filter (undetermined self cell) (block cell)))
      (n - Z.of_nat (length (filter (confirmed_mine self cell) (block cell)))).
Proof. rewrite get_sentence_block, visit_loop. reflexivity. Qed.

Lemma confirmed_mine_count (self : MinesweeperAI.t) (cell : Cell) :
  length (filter (confirmed_mine self cell) (block cell))
  = size (filter (λ c, neighbor cell c ∧ in_bounds self c) (mines self)).
Proof.
  rewrite <- (size_list_to_set (C := gset Cell))
    by (apply NoDup_filter, NoDup_block).
  f_equal. apply set_eq. intros c.
  rewrite elem_of_list_to_set, list_elem_of_filter, elem_of_filter.
  rewrite elem_of_block. unfold confirmed_mine, neighbor. tauto.
Qed.

Lemma get_sentence_holds (M : gset Cell) (self : MinesweeperAI.t)
    (cell : Cell) (n : Z) :
  mines self ⊆ M → safes self ## M →
  n = mines_around (height self) (width self) M cell →
  holds M (get_sentence self cell n).
Proof.
  intros Hm Hs ->. rewrite get_sentence_closed_form.
  unfold holds, known_safes, known_mines.
  cbn [cells count safe_cells mines_cells Sentence.__init__].
  split; [|split; set_solver]. intros _.
  rewrite confirmed_mine_count.
  set (around := λ c : Cell, neighbor cell c ∧ in_bounds self c).
  change (mines_around (height self) (width self) M cell)
    with (Z.of_nat (size (filter around M))).
  assert ((∅ ∪ list_to_set (filter (undetermined self cell) (block cell))) ∩ M
          = filter around M ∖ filter around (mines self)) as ->.
  { apply set_eq. intros c.
    rewrite elem_of_intersection, elem_of_union, elem_of_list_to_set,
      list_elem_of_filter, elem_of_difference, !elem_of_filter, elem_of_block.
    unfold around, undetermined, neighbor. set_solver. }
  rewrite size_difference by (apply filter_subseteq_mono || set_solver).
  assert (size (filter around (mines self)) ≤ size (filter around M))%nat
    by (apply subseteq_size; set_solver).
  lia.
Qed.

(** The sentence built for a truthful observation is true: when the
    engine is right about the mines and the safes it has confirmed, and
    the reported count is the number of mines around the cell, the count of
    the new sentence is the number of mines among its cells. *)
Theorem get_sentence_sound (M : gset Cell) (self : MinesweeperAI.t)
    (cell : Cell) (n : Z) :
  mines self ⊆ M → safes self ## M →
  n = mines_around (height self) (width self) M cell →
  count (get_sentence self cell n)
  = Z.of_nat (size (cells (get_sentence self cell n) ∩ M)).
Proof.
  intros Hm Hs Hn.
  destruct (get_sentence_holds M self cell n Hm Hs Hn) as (Hcount & _).
  destruct (decide (cells (get_sentence self cell n) = ∅)) as [He|Hne];
    [|by apply Hcount].
  rewrite He. replace (∅ ∩ M) with (∅ : gset Cell) by set_solver.
  rewrite size_empty. revert He. rewrite get_sentence_closed_form.
  cbn [cells count Sentence.__init__]. intros He. subst n.
  rewrite confirmed_mine_count.
  set (around := λ c : Cell, neighbor cell c ∧ in_bounds self c).
  change (mines_around (height self) (width self) M cell)
    with (Z.of_nat (size (filter around M))).
  assert (filter around M = filter around (mines self)) as ->; [|lia].
  apply set_eq. intros c. rewrite !elem_of_filter. split; [|set_solver].
  intros [Ha HM]. split; [done|].
  destruct (decide (c ∈ mines self)) as [|Hnm]; [done|]. exfalso.
  assert (c ∈ (∅ ∪ list_to_set (filter (undetermined self cell) (block cell))
               : gset Cell)) as Hc; [|set_solver].
  rewrite elem_of_union, elem_of_list_to_set, list_elem_of_filter, elem_of_block.
  right. unfold around, neighbor, undetermined in *. set_solver.
Qed.

Lemma get_sentence_sound_witness :
  count (get_sentence (MinesweeperAI.__init__ 2 2) (0, 0) 1)
  = Z.of_nat (size (cells (get_sentence (MinesweeperAI.__init__ 2 2) (0, 0) 1)
                    ∩ {[ (1, 1) ]})).
Proof.
  apply (get_sentence_sound {[ (1, 1) ]} (MinesweeperAI.__init__ 2 2) (0, 0) 1).
  - apply (bool_decide_unpack _). vm_compute. exact I.
  - apply (bool_decide_unpack _). vm_compute. exact I.
  - vm_compute. reflexivity.
Defined.

End EngineTruth.

Section EngineSoundness.
Import Sentence MinesweeperAI.

Lemma known_sets_sound (M : gset Cell) (l : list Sentence.t) :
  Forall (holds M) l →
  ⋃ (known_safes <$> l) ## M ∧ ⋃ (known_mines <$> l) ⊆ M.
Proof.
  induction 1 as [|s l (_ & Hs & Hm) _ [IHs IHm]];
    cbn [fmap list_fmap union_list]; set_solver.
Qed.

Lemma engine_mark_safe_sound (M : gset Cell) (self : MinesweeperAI.t)
    (c : Cell) :
  c ∉ M → sound M self → sound M (MinesweeperAI.mark_safe self c).
Proof.
  intros Hc (Hm & Hs & Hk). unfold sound, MinesweeperAI.mark_safe.
  cbn [mines safes knowledge]. split; [done|]. split; [set_solver|].
  apply Forall_fmap. eapply Forall_impl; [exact Hk|].
  intros s Hs'. by apply mark_safe_holds.
Qed.

Lemma engine_mark_mine_sound (M : gset Cell) (self : MinesweeperAI.t)
    (c : Cell) :
  c ∈ M → sound M self → sound M (MinesweeperAI.mark_mine self c).
Proof.
  intros Hc (Hm & Hs & Hk). unfold sound, MinesweeperAI.mark_mine.
  cbn [mines safes knowledge]. split; [set_solver|]. split; [done|].
  apply Forall_fmap. eapply Forall_impl; [exact Hk|].
  intros s Hs'. by apply mark_mine_holds.
Qed.

Lemma sweep_sound (M : gset Cell) (self : MinesweeperAI.t) :
  sound M self → sound M (sweep self).
Proof.
  intros (Hm & Hs & Hk). rewrite sweep_closed_form. unfold sound.
  cbn [mines safes knowledge].
  assert (Forall (holds M) (map conclude (knowledge self))) as Hk'.
  { apply Forall_fmap. eapply Forall_impl; [exact Hk|].
    intros s Hs'. by apply conclude_holds. }
  destruct (known_sets_sound M _ Hk') as [Hsafe Hmine].
  split; [set_solver|]. split; [set_solver|done].
Qed.

Lemma pair_step_holds (M : gset Cell) (i j : nat)
    (kp kp' : list Sentence.t * list nat) :
  Forall (holds M) kp.1 → pair_step i kp j = Ok kp' → Forall (holds M) kp'.1.
Proof.
  intros Hk. unfold pair_step.
  destruct (decide (i = j)); [by intros [= <-]|].
  destruct (item kp.2 i) as [p| |]; cbn [mbind result_bind]; [|discriminate..].
  destruct (decide (p = j)); [by intros [= <-]|].
  unfold item.
  destruct (kp.1 !! i) as [a|] eqn:Ha; cbn [mbind result_bind]; [|discriminate].
  destruct (kp.1 !! j) as [b|] eqn:Hb; cbn [mbind result_bind]; [|discriminate].
  destruct (inferences a b) as [sent|] eqn:Hab; [|by intros [= <-]].
  destruct (decide (size (cells sent) ≠ 0%nat)); intros [= <-]; [|done].
  cbn [fst]. apply Forall_app. split; [done|]. apply Forall_singleton.
  apply (inferences_holds M a b); [| |done].
  - exact (Forall_lookup_1 _ _ _ _ Hk Ha).
  - exact (Forall_lookup_1 _ _ _ _ Hk Hb).
Qed.

Lemma pairwise_holds (M : gset Cell) (kp kp' : list Sentence.t * list nat) :
  Forall (holds M) kp.1 → pairwise kp = Ok kp' → Forall (holds M) kp'.1.
Proof.
  unfold pairwise.
  apply (foldM_preserved inner_loop (λ kp, Forall (holds M) kp.1)).
  intros s i s'. unfold inner_loop.
  apply (foldM_preserved (pair_step i) (λ kp, Forall (holds M) kp.1)).
  intros s1 j s2. apply pair_step_holds.
Qed.

Lemma observe_sound (M : gset Cell) (self : MinesweeperAI.t)
    (cell : Cell) (n : Z) :
  sound M self → truthful (height self) (width self) M (cell, n) →
  sound M (observe self cell n).
Proof.
  intros Hsound [Hcell Hn]. cbn [fst snd] in Hcell, Hn.
  pose proof (engine_mark_safe_sound M self cell Hcell Hsound)
    as (Hm & Hs & Hk).
  unfold sound. rewrite observe_knowledge.
  unfold observe. cbn [mines safes MinesweeperAI.mark_safe] in *.
  split; [done|]. split; [done|].
  apply Forall_app. split; [done|]. apply Forall_singleton.
  by apply get_sentence_holds.
Qed.

Lemma add_knowledge_sound (M : gset Cell) (self self' : MinesweeperAI.t)
    (cell : Cell) (n : Z) :
  sound M self → truthful (height self) (width self) M (cell, n) →
  add_knowledge self cell n = Ok self' → sound M self'.
Proof.
  intros Hsound Htrue. unfold add_knowledge, infer_all.
  pose proof (sweep_sound M _ (observe_sound M self cell n Hsound Htrue))
    as (Hm & Hs & Hk).
  destruct (pairwise _) as [kp| |] eqn:Hkp; cbn [mbind result_bind];
    [|discriminate..].
  intros [= <-]. unfold sound. cbn [mines safes knowledge].
  split; [done|]. split; [done|].
  exact (pairwise_holds M (_, _) kp Hk Hkp).
Qed.

Lemma add_knowledge_size (self self' : MinesweeperAI.t) (cell : Cell) (n : Z) :
  add_knowledge self cell n = Ok self' →
  height self' = height self ∧ width self' = width self.
Proof.
  unfold add_knowledge, infer_all.
  destruct (pairwise _) as [kp| |]; cbn [mbind result_bind]; [|discriminate..].
  intros [= <-]. cbn [height width]. by rewrite sweep_closed_form.
Qed.

Lemma feed_sound (M : gset Cell) (h w : Z) (obs : list (Cell * Z)) :
  Forall (truthful h w M) obs →
  ∀ self self',
    height self = h → width self = w → sound M self →
    feed self obs = Ok self' →
    height self' = h ∧ width self' = w ∧ sound M self'.
Proof.
  unfold feed. induction 1 as [|[cell n] obs Ho _ IH];
    intros self self' Hh Hw Hsound; cbn [foldM].
  - by intros [= <-].
  - cbn [fst snd].
    destruct (add_knowledge self cell n) as [s1| |] eqn:H1;
      cbn [mbind result_bind]; [|discriminate..].
    destruct (add_knowledge_size _ _ _ _ H1) as [Hh1 Hw1].
    apply IH; [congruence..|].
    apply (add_knowledge_sound M self s1 cell n); [done| |done].
    by rewrite Hh, Hw.
Qed.

(** The engine is never wrong about truthful observations: started from
    an engine that is right about the mine layout [M], a fresh one for
    instance, and fed observations of cells that are no mines with the
    true count of mines around them, [add_knowledge] leaves an engine
    whose confirmed mines are all mines of [M], whose confirmed safes hold
    no mine of [M], and whose sentences are all true of [M]. *)
Theorem add_knowledge_never_wrong
    (M : gset Cell) (self self' : MinesweeperAI.t) (obs : list (Cell * Z)) :
  sound M self →
  Forall (truthful (height self) (width self) M) obs →
  feed self obs = Ok self' →
  mines self' ⊆ M
  ∧ safes self' ## M
  ∧ Forall (holds M) (knowledge self').
Proof.
  intros Hsound Hobs Hrun.
  by destruct (feed_sound M _ _ obs Hobs self self' eq_refl eq_refl Hsound Hrun)
    as (_ & _ & Hs).
Qed.

Lemma add_knowledge_never_wrong_witness :
  ∃ self',
    feed (MinesweeperAI.__init__ 2 2) [((0, 0), 1); ((0, 1), 1)] = Ok self'
    ∧ mines self' ⊆ {[ (1, 1) ]}
    ∧ safes self' ## {[ (1, 1) ]}.
Proof.
  destruct (feed (MinesweeperAI.__init__ 2 2) [((0, 0), 1); ((0, 1), 1)])
    as [self'| |] eqn:Hrun; [|vm_compute in Hrun; discriminate..].
  exists self'. split; [reflexivity|].
  assert (∀ P (d : Decision P), bool_decide P = true → P) as Hdec
    by (intros P d; apply bool_decide_eq_true_1).
  assert (sound {[ (1, 1) ]} (MinesweeperAI.__init__ 2 2)) as Hsound.
  { split; [|split]; [apply (Hdec _ _); vm_compute; reflexivity..|].
    apply Forall_nil_2. }
  assert (Forall (truthful 2 2 {[ (1, 1) ]}) [((0, 0), 1); ((0, 1), 1)])
    as Hobs.
  { repeat (apply Forall_cons; split;
              [split; [apply (Hdec _ _); vm_compute; reflexivity
                      |vm_compute; reflexivity]|]).
    apply Forall_nil_2. }
  destruct (add_knowledge_never_wrong {[ (1, 1) ]} _ _ _ Hsound Hobs Hrun)
    as (Hm & Hs & _).
  by split.
Defined.

End EngineSoundness.

(** ** Marking a cell in the whole engine *)

Section Broadcast.
Import Sentence MinesweeperAI.

Lemma conclude_cells (s : Sentence.t) : cells (conclude s) ⊆ cells s.
Proof. apply conclude_conserves. Qed.

Lemma mark_safe_removes (s : Sentence.t) (c : Cell) :
  c ∉ cells (Sentence.mark_safe s c).
Proof.
  unfold Sentence.mark_safe. destruct (decide (c ∉ cells s)); [done|].
  pose proof (conclude_cells
                (Sentence.mk (cells s ∖ {[c]}) (count s)
                             (safe_cells s ∪ {[c]}) (mines_cells s))) as H.
  cbn [cells] in H. set_solver.
Qed.

Lemma mark_mine_removes (s : Sentence.t) (c : Cell) :
  c ∉ cells (Sentence.mark_mine s c).
Proof.
  unfold Sentence.mark_mine. destruct (decide (c ∉ cells s)); [done|].
  pose proof (conclude_cells
                (Sentence.mk (cells s ∖ {[c]}) (count s - 1)
                             (safe_cells s) (mines_cells s ∪ {[c]}))) as H.
  cbn [cells] in H. set_solver.
Qed.

(** [mark_safe] and [mark_mine] of the engine reach every sentence: the
    cell is recorded in [safes] (in [mines]), the other sets and the
    number of sentences are unchanged, and afterwards no sentence holds
    the cell. When the engine is right about a mine layout and the mark is
    right too, the engine stays right. *)
Theorem engine_mark_reaches_every_sentence
    (M : gset Cell) (self : MinesweeperAI.t) (c : Cell) :
  (safes (MinesweeperAI.mark_safe self c) = safes self ∪ {[c]}
   ∧ mines (MinesweeperAI.mark_safe self c) = mines self
   ∧ moves_made (MinesweeperAI.mark_safe self c) = moves_made self
   ∧ length (knowledge (MinesweeperAI.mark_safe self c))
     = length (knowledge self)
   ∧ Forall (λ s, c ∉ cells s) (knowledge (MinesweeperAI.mark_safe self c))
   ∧ (c ∉ M → sound M self → sound M (MinesweeperAI.mark_safe self c)))
  ∧ (mines (MinesweeperAI.mark_mine self c) = mines self ∪ {[c]}
     ∧ safes (MinesweeperAI.mark_mine self c) = safes self
     ∧ moves_made (MinesweeperAI.mark_mine self c) = moves_made self
     ∧ length (knowledge (MinesweeperAI.mark_mine self c))
       = length (knowledge self)
     ∧ Forall (λ s, c ∉ cells s) (knowledge (MinesweeperAI.mark_mine self c))
     ∧ (c ∈ M → sound M self → sound M (MinesweeperAI.mark_mine self c))).
Proof.
  split.
  - do 3 (split; [reflexivity|]).
    cbn [knowledge MinesweeperAI.mark_safe]. split; [apply length_map|].
    split; [|apply engine_mark_safe_sound].
    apply Forall_fmap, Forall_forall. intros s _. apply mark_safe_removes.
  - do 3 (split; [reflexivity|]).
    cbn [knowledge MinesweeperAI.mark_mine]. split; [apply length_map|].
    split; [|apply engine_mark_mine_sound].
    apply Forall_fmap, Forall_forall. intros s _. apply mark_mine_removes.
Qed.

Lemma engine_mark_reaches_every_sentence_witness :
  ∃ self,
    add_knowledge (MinesweeperAI.__init__ 2 2) (0, 0) 1 = Ok self
    ∧ (∃ s, knowledge self !! 0%nat = Some s
            ∧ cells s = {[ (0, 1); (1, 0); (1, 1) ]} ∧ count s = 1)
    ∧ Forall (λ s, (1, 1) ∉ cells s)
             (knowledge (MinesweeperAI.mark_mine self (1, 1)))
    ∧ sound {[ (1, 1) ]} (MinesweeperAI.mark_mine self (1, 1))
    ∧ Forall (λ s, (0, 1) ∉ cells s)
             (knowledge (MinesweeperAI.mark_safe self (0, 1)))
    ∧ sound {[ (1, 1) ]} (MinesweeperAI.mark_safe self (0, 1)).
Proof.
  assert (∀ P (d : Decision P), bool_decide P = true → P) as Hdec
    by (intros P d; apply bool_decide_eq_true_1).
  eexists. split; [vm_compute; reflexivity|].
  match goal with
  | |- _ ∧ Forall _ (knowledge (MinesweeperAI.mark_mine ?e _)) ∧ _ =>
      set (self := e)
  end.
  assert (sound {[ (1, 1) ]} self) as Hsound.
  { split; [|split]; [apply (Hdec _ _); vm_compute; reflexivity..|].
    apply Forall_cons. split; [|apply Forall_nil_2].
    split; [intros _; vm_compute; reflexivity|].
    split; apply (Hdec _ _); vm_compute; reflexivity. }
  split.
  { eexists. split; [reflexivity|]. split; vm_compute; reflexivity. }
  destruct (engine_mark_reaches_every_sentence {[ (1, 1) ]} self (1, 1))
    as (_ & _ & _ & _ & _ & Hreach_mine & Hmine).
  destruct (engine_mark_reaches_every_sentence {[ (1, 1) ]} self (0, 1))
    as ((_ & _ & _ & _ & Hreach_safe & Hsafe) & _).
  split; [exact Hreach_mine|]. split.
  - apply Hmine; [|exact Hsound]. apply (Hdec _ _). vm_compute. reflexivity.
  - split; [exact Hreach_safe|].
    apply Hsafe; [|exact Hsound]. apply (Hdec _ _). vm_compute. reflexivity.
Defined.

End Broadcast.

(** ** Choosing a move *)

Section Moves.
Import Sentence MinesweeperAI.

Lemma make_safe_move_Some (self : MinesweeperAI.t) (order : list Cell)
    (c : Cell) :
  make_safe_move self order = Some c → c ∈ order ∧ c ∉ moves_made self.
Proof.
  induction order as [|move order IH]; cbn [make_safe_move]; [discriminate|].
  destruct (decide (move ∉ moves_made self)).
  - intros [= <-]. split; [left|done].
  - intros Hc. destruct (IH Hc). split; [by right|done].
Qed.

Lemma make_safe_move_None (self : MinesweeperAI.t) (order : list Cell) :
  make_safe_move self order = None → ∀ c, c ∈ order → c ∈ moves_made self.
Proof.
  induction order as [|move order IH]; cbn [make_safe_move].
  - intros _ c Hc. by apply elem_of_nil in Hc.
  - destruct (decide (move ∉ moves_made self)) as [|Hin]; [discriminate|].
    intros Hn c Hc. apply elem_of_cons in Hc as [->|Hc]; [|by apply IH].
    by apply dec_stable.
Qed.

(** In whatever order the interpreter goes through [self.safes],
    [make_safe_move] returns a confirmed safe cell that is no move made
    yet, and it returns nothing only when every confirmed safe cell is a
    move made already. *)
Theorem make_safe_move_returns_unmade_safe
    (self : MinesweeperAI.t) (order : list Cell) :
  (∀ c, c ∈ order ↔ c ∈ safes self) →
  match make_safe_move self order with
  | Some c => c ∈ safes self ∧ c ∉ moves_made self
  | None => safes self ⊆ moves_made self
  end.
Proof.
  intros Horder. destruct (make_safe_move self order) as [c|] eqn:Hmove.
  - apply make_safe_move_Some in Hmove as [Hc Hn]. split; [|done].
    by apply Horder.
  - intros c Hc. apply (make_safe_move_None self order Hmove).
    by apply Horder.
Qed.

Lemma make_safe_move_returns_unmade_safe_witness :
  ∃ self,
    add_knowledge (MinesweeperAI.__init__ 2 2) (0, 0) 0 = Ok self
    ∧ match make_safe_move self (elements (safes self)) with
      | Some c => c ∈ safes self ∧ c ∉ moves_made self
      | None => safes self ⊆ moves_made self
      end.
Proof.
  destruct (add_knowledge (MinesweeperAI.__init__ 2 2) (0, 0) 0)
    as [self| |] eqn:Hrun; [|vm_compute in Hrun; discriminate..].
  exists self. split; [reflexivity|].
  apply (make_safe_move_returns_unmade_safe self (elements (safes self))).
  intros c. apply elem_of_elements.
Defined.

End Moves.

Section RandomMove.
Import Sentence MinesweeperAI.

Lemma elem_of_range (lo hi k : Z) : k ∈ range lo hi ↔ lo ≤ k < hi.
Proof. unfold range. rewrite elem_of_seqZ. lia. Qed.

Lemma elem_of_grid (h w : Z) (c : Cell) :
  c ∈ grid h w ↔ (0 ≤ c.1 < h) ∧ (0 ≤ c.2 < w).
Proof.
  unfold grid. rewrite list_elem_of_bind. split.
  - intros (i & Hc & Hi). apply list_elem_of_bind in Hc as (j & Hc & Hj).
    apply list_elem_of_singleton in Hc as ->. cbn [fst snd].
    by rewrite elem_of_range in Hi, Hj.
  - intros [Hi Hj]. exists c.1. rewrite elem_of_range. split; [|done].
    apply list_elem_of_bind. exists c.2. rewrite elem_of_range.
    split; [|done]. destruct c. cbn [fst snd]. apply list_elem_of_singleton.
    reflexivity.
Qed.

Lemma possible_places_loop (P : Cell → Prop) `{!∀ c, Decision (P c)}
    (cols rows : list Z) :
  ∀ places : list Cell,
    foldl (λ places i,
             foldl (λ places j,
                      if decide (P (i, j)) then places ++ [(i, j)] else places)
                   places cols)
          places rows
    = places ++ filter P (i ← rows; j ← cols; [(i, j)]).
Proof.
  induction rows as [|i rows IH]; intros places; cbn [foldl].
  - by rewrite app_nil_r.
  - rewrite IH. rewrite bind_cons, filter_app, app_assoc. f_equal.
    clear IH. revert places.
    induction cols as [|j cols IH]; intros places; cbn [foldl].
    + by rewrite app_nil_r.
    + rewrite IH. rewrite bind_cons. cbn [app]. rewrite filter_cons.
      destruct (decide (P (i, j))); [|done].
      by rewrite <- app_assoc.
Qed.

Lemma possible_places_grid (self : MinesweeperAI.t) :
  possible_places self
  = filter (λ c, (c ∉ moves_made self) ∧ (c ∉ mines self))
           (grid (height self) (width self)).
Proof.
  unfold possible_places, grid.
  exact (possible_places_loop
           (λ c, (c ∉ moves_made self) ∧ (c ∉ mines self))
           (range 0 (width self)) (range 0 (height self)) []).
Qed.

Lemma elem_of_possible_places (self : MinesweeperAI.t) (c : Cell) :
  c ∈ possible_places self ↔ eligible self c.
Proof.
  rewrite possible_places_grid, list_elem_of_filter, elem_of_grid.
  unfold eligible, in_bounds. tauto.
Qed.

(** [make_random_move] returns only cells of the board that are neither
    moves made nor confirmed mines; every such cell is returned for some
    draw; and nothing is returned exactly when the board has no such cell
    left. *)
Theorem make_random_move_chooses_eligible (self : MinesweeperAI.t) :
  (∀ r c, make_random_move self r = Some c → eligible self c)
  ∧ (∀ c, eligible self c → ∃ r, make_random_move self r = Some c)
  ∧ (∀ r, make_random_move self r = None
          ↔ ∀ c, in_bounds self c → c ∈ moves_made self ∨ c ∈ mines self).
Proof.
  unfold make_random_move. split; [|split].
  - intros r c.
    destruct (decide (length (possible_places self) = 0%nat)); [discriminate|].
    intros Hc. apply elem_of_possible_places.
    by eapply list_elem_of_lookup_2.
  - intros c Hc. apply elem_of_possible_places in Hc.
    apply list_elem_of_lookup_1 in Hc as [k Hk].
    pose proof (lookup_lt_Some _ _ _ Hk) as Hlt.
    exists (Z.of_nat k). rewrite decide_False by lia.
    rewrite Z.mod_small by lia. by rewrite Nat2Z.id.
  - intros r. split.
    + destruct (decide (length (possible_places self) = 0%nat)) as [He|Hne].
      * intros _ c Hb.
        destruct (decide (c ∈ moves_made self)) as [|Hmv]; [by left|].
        destruct (decide (c ∈ mines self)) as [|Hmn]; [by right|].
        exfalso. assert (c ∈ possible_places self) as Hc
          by (apply elem_of_possible_places; by split).
        apply length_zero_iff_nil in He. rewrite He in Hc.
        by apply elem_of_nil in Hc.
      * intros Hnone. apply lookup_ge_None in Hnone.
        pose proof (Z.mod_pos_bound r (Z.of_nat (length (possible_places self))))
          as Hb.
        lia.
    + intros Hall.
      destruct (decide (length (possible_places self) = 0%nat)) as [|Hne];
        [done|].
      destruct (possible_places self) as [|c l] eqn:Hp; [done|].
      assert (eligible self c) as (Hb & Hmv & Hmn).
      { apply elem_of_possible_places. rewrite Hp. left. }
      destruct (Hall c Hb); done.
Qed.

Lemma make_random_move_chooses_eligible_witness :
  ∃ c, make_random_move (MinesweeperAI.__init__ 2 2) 3 = Some c
       ∧ eligible (MinesweeperAI.__init__ 2 2) c.
Proof.
  destruct (make_random_move (MinesweeperAI.__init__ 2 2) 3) as [c|] eqn:Hc;
    [|vm_compute in Hc; discriminate].
  exists c. split; [reflexivity|].
  exact (proj1 (make_random_move_chooses_eligible _) 3 c Hc).
Defined.

End RandomMove.

(** ** The engine on a board *)

Section Play.
Import Sentence.

Lemma is_mine_on_grid (b : Minesweeper.t) (c : Cell) :
  board_ok b →
  0 ≤ c.1 < Minesweeper.height b → 0 ≤ c.2 < Minesweeper.width b →
  Minesweeper.is_mine b c = Ok (bool_decide (c ∈ Minesweeper.mines b)).
Proof.
  intros Hok Hi Hj. destruct c as [i j]. cbn [fst snd] in *.
  destruct (cell_at_row _ _ _ _ i j Hok Hi Hj) as (row & Hrow & _ & Hb).
  unfold Minesweeper.is_mine.
  rewrite (getitem_front _ _ _ (proj1 Hi) Hrow). cbn [mbind result_bind].
  apply getitem_front; [lia|done].
Qed.

(** A fresh engine that plays on a board is never wrong and never loses
    by a safe move. Fed, for cells that are no mines, the counts that
    [nearby_mines] returns for them, the engine returns from every call;
    the mines it has confirmed are mines of the board; and a cell that
    [make_safe_move] returns is no mine, so that [is_mine] answers [False]
    for it when it is on the board. *)
Theorem safe_moves_avoid_mines
    (b : Minesweeper.t) (obs : list (Cell * Z)) :
  board_ok b →
  Forall (λ o, (o.1 ∉ Minesweeper.mines b)
               ∧ Minesweeper.nearby_mines b o.1 = Ok o.2) obs →
  ∃ ai,
    MinesweeperAI.feed
      (MinesweeperAI.__init__ (Minesweeper.height b) (Minesweeper.width b))
      obs = Ok ai
    ∧ MinesweeperAI.mines ai ⊆ Minesweeper.mines b
    ∧ MinesweeperAI.safes ai ## Minesweeper.mines b
    ∧ ∀ order c,
        (∀ x, x ∈ order → x ∈ MinesweeperAI.safes ai) →
        MinesweeperAI.make_safe_move ai order = Some c →
        (c ∉ Minesweeper.mines b)
        ∧ (0 ≤ c.1 < Minesweeper.height b → 0 ≤ c.2 < Minesweeper.width b →
           Minesweeper.is_mine b c = Ok false).
Proof.
  intros Hok Hobs.
  set (fresh_ai := MinesweeperAI.__init__ (Minesweeper.height b)
                                          (Minesweeper.width b)).
  destruct (feed_well_formed obs fresh_ai) as (ai & Hrun & _); [reflexivity|].
  exists ai. split; [done|].
  assert (sound (Minesweeper.mines b) ai) as (Hm & Hs & _).
  { apply (feed_sound (Minesweeper.mines b) (Minesweeper.height b)
             (Minesweeper.width b) obs) with (self := fresh_ai);
      [|reflexivity|reflexivity| |done].
    - eapply Forall_impl; [exact Hobs|]. intros [cell n] [Hcell Hn].
      cbn [fst snd] in *. split; [done|]. cbn [fst snd].
      rewrite nearby_mines_around in Hn by done. by injection Hn.
    - split; [|split]; [set_solver..|apply Forall_nil_2]. }
  split; [done|]. split; [done|].
  intros order c Horder Hmove.
  apply make_safe_move_Some in Hmove as [Hc _].
  assert (c ∉ Minesweeper.mines b) as Hnm by (apply Horder in Hc; set_solver).
  split; [done|]. intros Hi Hj.
  rewrite is_mine_on_grid by done. by rewrite bool_decide_eq_false_2.
Qed.

Lemma safe_moves_avoid_mines_witness :
  ∃ b ai,
    Minesweeper.__init__ 2 2 1 [(1, 1)] = Ok b
    ∧ MinesweeperAI.feed
        (MinesweeperAI.__init__ (Minesweeper.height b) (Minesweeper.width b))
        [((0, 0), 1); ((0, 1), 1)] = Ok ai
    ∧ MinesweeperAI.mines ai ⊆ Minesweeper.mines b
    ∧ MinesweeperAI.safes ai ## Minesweeper.mines b.
Proof.
  destruct (Minesweeper.__init__ 2 2 1 [(1, 1)]) as [b| |] eqn:Hb;
    [|vm_compute in Hb; discriminate..].
  destruct (init_sound _ _ _ _ _ Hb) as (_ & _ & _ & _ & Hok).
  assert (∀ P (d : Decision P), bool_decide P = true → P) as Hdec
    by (intros P d; apply bool_decide_eq_true_1).
  destruct (safe_moves_avoid_mines b [((0, 0), 1); ((0, 1), 1)] Hok)
    as (ai & Hrun & Hm & Hs & _).
  - vm_compute in Hb. injection Hb as <-.
    repeat (apply Forall_cons; split;
              [split; [apply (Hdec _ _); vm_compute; reflexivity
                      |vm_compute; reflexivity]|]).
    apply Forall_nil_2.
  - exists b, ai. by split.
Defined.

End Play.

(** ** What the knowledge base keeps *)

Section KnowledgeBase.
Import Sentence MinesweeperAI.

Lemma mark_safe_cells (s : Sentence.t) (c : Cell) :
  cells (Sentence.mark_safe s c) ⊆ cells s ∖ {[c]}.
Proof.
  unfold Sentence.mark_safe. destruct (decide (c ∉ cells s)); [set_solver|].
  pose proof (conclude_cells
                (Sentence.mk (cells s ∖ {[c]}) (count s)
                             (safe_cells s ∪ {[c]}) (mines_cells s))) as H.
  cbn [cells] in H. done.
Qed.

(** The pairwise loops keep every property of the cells of a sentence
    that passes to smaller sets of cells. *)
Lemma pairwise_cells (Q : gset Cell → Prop)
    (kp kp' : list Sentence.t * list nat) :
  (∀ X Y, X ⊆ Y → Q Y → Q X) →
  Forall (λ s, Q (cells s)) kp.1 → pairwise kp = Ok kp' →
  Forall (λ s, Q (cells s)) kp'.1.
Proof.
  intros HQ. unfold pairwise.
  apply (foldM_preserved inner_loop (λ kp, Forall (λ s, Q (cells s)) kp.1)).
  intros s i s'. unfold inner_loop.
  apply (foldM_preserved (pair_step i)
           (λ kp, Forall (λ s, Q (cells s)) kp.1)).
  clear s s'. intros s j s' Hk. unfold pair_step.
  destruct (decide (i = j)); [by intros [= <-]|].
  destruct (item s.2 i) as [p| |]; cbn [mbind result_bind]; [|discriminate..].
  destruct (decide (p = j)); [by intros [= <-]|].
  unfold item.
  destruct (s.1 !! i) as [a|] eqn:Ha; cbn [mbind result_bind]; [|discriminate].
  destruct (s.1 !! j) as [b|] eqn:Hb; cbn [mbind result_bind]; [|discriminate].
  destruct (inferences a b) as [sent|] eqn:Hab; [|by intros [= <-]].
  destruct (decide (size (cells sent) ≠ 0%nat)); intros [= <-]; [|done].
  cbn [fst]. apply Forall_app. split; [done|]. apply Forall_singleton.
  apply inferences_Some in Hab as (_ & _ & _ & ->).
  cbn [cells Sentence.__init__].
  apply (HQ _ (cells b)); [set_solver|].
  exact (Forall_lookup_1 _ _ _ _ Hk Hb).
Qed.

Lemma add_knowledge_tidy (self self' : MinesweeperAI.t) (cell : Cell) (n : Z) :
  tidy self → add_knowledge self cell n = Ok self' → tidy self'.
Proof.
  intros [Hmv Hk]. unfold add_knowledge, infer_all.
  destruct (pairwise _) as [kp| |] eqn:Hkp; cbn [mbind result_bind];
    [|discriminate..].
  intros [= <-]. unfold tidy, in_bounds.
  cbn [moves_made safes knowledge height width].
  rewrite sweep_closed_form in Hkp |- *.
  cbn [moves_made safes knowledge parent height width] in Hkp |- *.
  split.
  { unfold observe. cbn [moves_made safes MinesweeperAI.mark_safe].
    set_solver. }
  revert Hkp.
  apply (pairwise_cells
           (λ X, X ## moves_made (observe self cell n)
                 ∧ ∀ c, c ∈ X → (0 ≤ c.1 < height (observe self cell n))
                                ∧ (0 ≤ c.2 < width (observe self cell n)))
           (_, _)).
  { intros X Y HXY [Hd Hb]. split; [set_solver|]. intros c Hc. apply Hb.
    by apply HXY. }
  cbn [fst]. apply Forall_fmap, Forall_forall. intros s Hs. cbn [compose].
  pose proof (conclude_cells s) as Hsub.
  rewrite observe_knowledge in Hs.
  assert (cells s ## moves_made (observe self cell n)
          ∧ ∀ c, c ∈ cells s → (0 ≤ c.1 < height (observe self cell n))
                               ∧ (0 ≤ c.2 < width (observe self cell n)))
    as [Hd Hb]; [|split; [set_solver|intros c Hc; apply Hb; by apply Hsub]].
  unfold observe. cbn [moves_made height width MinesweeperAI.mark_safe].
  apply elem_of_app in Hs as [Hs|Hs].
  - apply list_elem_of_fmap in Hs as (s0 & -> & Hs0).
    pose proof (mark_safe_cells s0 cell) as Hms.
    rewrite Forall_forall in Hk. destruct (Hk s0 Hs0) as [Hd0 Hb0].
    split; [set_solver|]. intros c Hc. apply Hb0. set_solver.
  - apply list_elem_of_singleton in Hs as ->.
    rewrite get_sentence_closed_form. cbn [cells Sentence.__init__].
    assert (∀ c, c ∈ (∅ ∪ list_to_set
                        (filter (undetermined (MinesweeperAI.mark_safe self cell)
                                              cell) (block cell)) : gset Cell) →
                 in_bounds self c ∧ c ∉ safes self ∪ {[cell]}) as Hnew.
    { intros c. rewrite elem_of_union, elem_of_list_to_set, list_elem_of_filter.
      unfold undetermined, in_bounds.
      cbn [safes height width MinesweeperAI.mark_safe]. set_solver. }
    split.
    + intros c Hc Hm. destruct (Hnew c Hc) as [_ Hns]. set_solver.
    + intros c Hc. by destruct (Hnew c Hc).
Qed.

(** Revealed cells are accounted for, from a fresh engine on: after any
    sequence of calls of [add_knowledge], every cell of [moves_made] is
    confirmed safe, no sentence holds a cell of [moves_made], and the
    sentences hold cells of the board only. *)
Theorem revealed_cells_leave_the_sentences
    (self self' : MinesweeperAI.t) (obs : list (Cell * Z)) :
  tidy self → feed self obs = Ok self' →
  moves_made self' ⊆ safes self'
  ∧ Forall (λ s, cells s ## moves_made self'
                 ∧ ∀ c, c ∈ cells s → in_bounds self' c)
           (knowledge self').
Proof.
  intros Htidy. unfold feed.
  apply (foldM_preserved _ tidy); [|done].
  intros s o s' Hs. apply add_knowledge_tidy. done.
Qed.

Lemma revealed_cells_leave_the_sentences_witness :
  ∃ self',
    feed (MinesweeperAI.__init__ 2 3) [((0, 0), 1); ((0, 1), 1)] = Ok self'
    ∧ moves_made self' ⊆ safes self'.
Proof.
  destruct (feed (MinesweeperAI.__init__ 2 3) [((0, 0), 1); ((0, 1), 1)])
    as [self'| |] eqn:Hrun; [|vm_compute in Hrun; discriminate..].
  exists self'. split; [reflexivity|].
  apply (revealed_cells_leave_the_sentences (MinesweeperAI.__init__ 2 3)
           self' [((0, 0), 1); ((0, 1), 1)]); [|done].
  split; [|apply Forall_nil_2].
  apply (bool_decide_unpack _). vm_compute. exact I.
Defined.

End KnowledgeBase.

Section Parents.
Import Sentence MinesweeperAI.

Lemma pair_step_grown (kp0 : list Sentence.t * list nat) (i j : nat)
    (kp kp' : list Sentence.t * list nat) :
  grown_from kp0 kp → pair_step i kp j = Ok kp' → grown_from kp0 kp'.
Proof.
  intros (Hp & Hv & Hk1 & Hk2). unfold pair_step.
  destruct (decide (i = j)); [by intros [= <-]|].
  destruct (item kp.2 i) as [p| |]; cbn [mbind result_bind]; [|discriminate..].
  destruct (decide (p = j)); [by intros [= <-]|].
  unfold item.
  destruct (kp.1 !! i) as [a|] eqn:Ha; cbn [mbind result_bind]; [|discriminate].
  destruct (kp.1 !! j) as [b|] eqn:Hb; cbn [mbind result_bind]; [|discriminate].
  destruct (inferences a b) as [sent|]; [|by intros [= <-]].
  destruct (decide (size (cells sent) ≠ 0%nat)); intros [= <-]; [|done].
  apply lookup_lt_Some in Hb.
  unfold grown_from, parallel, parents_valid in *. cbn [fst snd].
  rewrite !length_app. cbn [length]. split; [lia|]. split.
  - apply Forall_app. split.
    + eapply Forall_impl; [exact Hv|]. cbn. intros q Hq. lia.
    + apply Forall_singleton. lia.
  - split; by apply prefix_app_r.
Qed.

Lemma pairwise_grown (kp kp' : list Sentence.t * list nat) :
  parallel kp → parents_valid kp → pairwise kp = Ok kp' → grown_from kp kp'.
Proof.
  intros Hp Hv. unfold pairwise.
  apply (foldM_preserved inner_loop (grown_from kp)); [|by split].
  intros s i s'. unfold inner_loop.
  apply (foldM_preserved (pair_step i) (grown_from kp)).
  intros s1 j s2. apply pair_step_grown.
Qed.

(** The two parallel lists stay in step. A call of [add_knowledge] on an
    engine whose [parent] list has one valid index per sentence leaves
    such an engine; it deletes no sentence and changes no parent index,
    the lists only grow at their end; and the sentence of the observation,
    which comes right after the sentences found, is its own parent. *)
Theorem parents_stay_valid
    (self self' : MinesweeperAI.t) (cell : Cell) (n : Z) :
  well_formed self → parents_valid (knowledge self, parent self) →
  add_knowledge self cell n = Ok self' →
  well_formed self'
  ∧ parents_valid (knowledge self', parent self')
  ∧ parent self `prefix_of` parent self'
  ∧ parent self' !! length (knowledge self) = Some (length (knowledge self))
  ∧ (length (knowledge self) < length (knowledge self'))%nat.
Proof.
  unfold well_formed, parallel. cbn [fst snd]. intros Hp Hv.
  unfold add_knowledge, infer_all.
  destruct (pairwise _) as [kp| |] eqn:Hkp; cbn [mbind result_bind];
    [|discriminate..].
  intros [= <-]. cbn [knowledge parent].
  rewrite sweep_closed_form in Hkp. cbn [knowledge parent] in Hkp.
  rewrite observe_knowledge in Hkp.
  assert (parent (observe self cell n)
          = parent self ++ [length (knowledge self)]) as Hpar.
  { unfold observe. cbn [knowledge parent MinesweeperAI.mark_safe].
    rewrite length_app, length_map. cbn [length]. do 2 f_equal. lia. }
  rewrite Hpar in Hkp.
  apply pairwise_grown in Hkp as (Hp' & Hv' & Hk1 & Hk2).
  - cbn [fst snd] in *. split; [done|]. split; [done|].
    split; [by eapply prefix_app_l|]. split.
    + eapply prefix_lookup_Some; [|exact Hk2].
      rewrite lookup_app_r by lia. rewrite Hp, Nat.sub_diag. reflexivity.
    + apply prefix_length in Hk1.
      rewrite length_map, length_app, length_map in Hk1. cbn [length] in Hk1.
      lia.
  - unfold parallel. cbn [fst snd].
    rewrite length_map, !length_app, length_map, Hp. reflexivity.
  - unfold parents_valid in *. cbn [fst snd] in *.
    rewrite length_map, length_app, length_map. cbn [length].
    apply Forall_app. split.
    + eapply Forall_impl; [exact Hv|]. cbn. intros q Hq. lia.
    + apply Forall_singleton. lia.
Qed.

Lemma parents_stay_valid_witness :
  ∃ self',
    add_knowledge (MinesweeperAI.__init__ 2 3) (0, 0) 1 = Ok self'
    ∧ well_formed self'
    ∧ parents_valid (knowledge self', parent self').
Proof.
  destruct (add_knowledge (MinesweeperAI.__init__ 2 3) (0, 0) 1)
    as [self'| |] eqn:Hrun; [|vm_compute in Hrun; discriminate..].
  exists self'. split; [reflexivity|].
  destruct (parents_stay_valid (MinesweeperAI.__init__ 2 3) self' (0, 0) 1)
    as (Hwf & Hv & _); [reflexivity|apply Forall_nil_2|done|].
  by split.
Defined.

End Parents.

(** ** Mine counts the board cannot hold *)

Section ImpossibleCounts.
Import Minesweeper.

Lemma length_grid (h w : Z) :
  length (grid h w) = (Z.to_nat h * Z.to_nat w)%nat.
Proof.
  unfold grid.
  assert (∀ (i : Z) (cols : list Z),
            length (cols ≫= λ j, [(i, j)]) = length cols) as Hrow.
  { intros i cols. induction cols as [|j cols IH]; [done|].
    rewrite bind_cons. cbn [app length]. by rewrite IH. }
  assert (∀ rows cols : list Z,
            length (rows ≫= λ i, cols ≫= λ j, [(i, j)])
            = (length rows * length cols)%nat) as Hgrid.
  { intros rows cols. induction rows as [|i rows IH]; [done|].
    rewrite bind_cons, length_app, IH, Hrow. cbn [length]. lia. }
  rewrite Hgrid, !length_range, !Z.sub_0_r. reflexivity.
Qed.

Lemma size_list_to_set_le (l : list Cell) :
  (size (list_to_set l : gset Cell) ≤ length l)%nat.
Proof.
  induction l as [|x l IH]; cbn [list_to_set length].
  - by rewrite size_empty.
  - rewrite size_union_alt, size_singleton.
    assert (size (list_to_set l ∖ {[x]} : gset Cell)
            ≤ size (list_to_set l : gset Cell))%nat
      by (apply subseteq_size; set_solver).
    lia.
Qed.

Lemma mines_fit_the_grid (h w : Z) (mines : gset Cell)
    (board : list (list bool)) :
  board_inv h w mines board → (size mines ≤ Z.to_nat h * Z.to_nat w)%nat.
Proof.
  intros Hinv. rewrite <- length_grid.
  etransitivity; [|apply size_list_to_set_le].
  apply subseteq_size. intros c Hc.
  apply elem_of_list_to_set, elem_of_grid. by apply (inv_grid _ _ _ _ Hinv).
Qed.

(** The constructor never returns a board for a number of mines that the
    grid cannot hold: a negative number, or more mines than cells. On a
    grid of positive height and width it then raises nothing either: the
    loop goes on for as long as draws are supplied. *)
Theorem init_never_returns_impossible_count
    (h w m : Z) (draws : list (Z * Z)) :
  m < 0 ∨ Z.of_nat (Z.to_nat h * Z.to_nat w) < m →
  (∀ b, Minesweeper.__init__ h w m draws ≠ Ok b)
  ∧ (0 < h → 0 < w → Minesweeper.__init__ h w m draws = Running).
Proof.
  intros Hm.
  assert (∀ b, Minesweeper.__init__ h w m draws ≠ Ok b) as Hnever.
  { intros b Hb.
    destruct (init_sound _ _ _ _ _ Hb) as (Hh & Hw & _ & Hsz & Hok).
    unfold board_ok in Hok. rewrite Hh, Hw in Hok.
    apply mines_fit_the_grid in Hok. lia. }
  split; [done|]. intros Hh Hw.
  destruct (Minesweeper.__init__ h w m draws) as [b|e|] eqn:Hrun; [| |done].
  - by destruct (Hnever b).
  - by destruct (init_no_raise h w m draws e Hh Hw).
Qed.

Lemma init_never_returns_impossible_count_witness :
  Minesweeper.__init__ 2 2 5 [(0, 0); (0, 1); (1, 0); (1, 1); (0, 0)] = Running.
Proof.
  apply (init_never_returns_impossible_count 2 2 5); lia.
Defined.

End ImpossibleCounts.

